(** * NovaMint: the collection / token ledger of [contracts/NovaMint.sol]

    A shallow embedding of the Solidity contract (pragma ^0.8.27, so every
    [uint256] addition is checked and reverts with [Panic(0x11)] on
    overflow), followed by the properties of the ledger:
    supply bounds, id allocation, range disjointness, access control of
    [setHiddenOwner], atomic failure, balances and the token views. *)

From Stdlib Require Import NArith String List Lia.
From stdpp Require Import gmap list.
Import ListNotations.

Local Open Scope N_scope.

(** ** Machine types *)

(** [uint256] values are naturals of [N]; the bound is enforced where the
    compiler enforces it, in [checked_add]. *)
Definition uint256 := N.
Definition MAX_UINT256 : N := 2 ^ 256 - 1.
Arguments MAX_UINT256 : simpl never.

(** A 160-bit account; [address(0)] is [0]. *)
Definition address := N.
Definition address_zero : address := 0.

(** [eaddress] and [externalEaddress] are [bytes32] handles. *)
Definition eaddress := N.
Definition externalEaddress := N.
Definition bytes := list Byte.byte.

Module Collection.
Record t := mk {
  name : string;
  maxSupply : uint256;
  minted : uint256;
  creator : address;
  baseTokenId : uint256;
  hiddenOwner : eaddress;
  exists_ : bool
}.

(** The value an unset slot of [mapping(uint256 => Collection)] reads as. *)
Definition zero : t := mk EmptyString 0 0 address_zero 0 0 false.

Definition with_minted (v : uint256) (c : t) : t :=
  mk (name c) (maxSupply c) v (creator c) (baseTokenId c) (hiddenOwner c) (exists_ c).

Definition with_hiddenOwner (h : eaddress) (c : t) : t :=
  mk (name c) (maxSupply c) (minted c) (creator c) (baseTokenId c) h (exists_ c).
End Collection.

Module CollectionView.
Record t := mk {
  id : uint256;
  name : string;
  maxSupply : uint256;
  minted : uint256;
  creator : address;
  baseTokenId : uint256;
  hiddenOwner : eaddress
}.

(** Element of a freshly allocated [CollectionView[] memory]. *)
Definition zero : t := mk 0 EmptyString 0 0 address_zero 0 0.
End CollectionView.

Inductive Event :=
| CollectionCreated (id : uint256) (creator : address) (name : string)
                    (maxSupply : uint256) (hiddenOwner : eaddress)
| HiddenOwnerUpdated (id : uint256) (hiddenOwner : eaddress)
| Minted (collectionId tokenId : uint256) (to : address)
| Transfer (from to : address) (tokenId : uint256).

Inductive Error :=
| InvalidCollection
| SupplyExhausted
| EmptyName
| InvalidSupply
| NotCollectionOwner
| ZeroAddress
| InvalidToken
| InvalidEncryptedInput   (* FHE.fromExternal rejected the handle / proof *)
| Panic (code : N).       (* compiler-inserted checks; 0x11 is overflow *)

Inductive Result (A : Type) :=
| Ok (a : A)
| Revert (e : Error).
Arguments Ok {A} a.
Arguments Revert {A} e.

Definition is_ok {A} (r : Result A) : bool :=
  match r with Ok _ => true | Revert _ => false end.

(** Who a handle has been made readable for through [FHE.allow*]. *)
Inductive Grantee :=
| ThisContract
| Account (a : address).

(** ** Contract storage *)

Record State := mkState {
  _collectionCount : uint256;
  _nextTokenId : uint256;
  _collections : gmap N Collection.t;
  _tokenToCollection : gmap N uint256;
  _owners : gmap N address;
  _balances : gmap N uint256;
  (* outside the contract's own storage, but written by its calls *)
  fhe_acl : list (eaddress * Grantee);
  event_log : list Event
}.

(** Storage right after deployment: [_nextTokenId = 1], everything else zero. *)
Definition initial_state : State :=
  mkState 0 1 ∅ ∅ ∅ ∅ [] [].

Definition set_collectionCount (v : uint256) (s : State) : State :=
  mkState v (_nextTokenId s) (_collections s) (_tokenToCollection s)
          (_owners s) (_balances s) (fhe_acl s) (event_log s).

Definition set_nextTokenId (v : uint256) (s : State) : State :=
  mkState (_collectionCount s) v (_collections s) (_tokenToCollection s)
          (_owners s) (_balances s) (fhe_acl s) (event_log s).

Definition set_collection (k : uint256) (c : Collection.t) (s : State) : State :=
  mkState (_collectionCount s) (_nextTokenId s) (<[k := c]> (_collections s))
          (_tokenToCollection s) (_owners s) (_balances s) (fhe_acl s) (event_log s).

Definition set_tokenToCollection (k v : uint256) (s : State) : State :=
  mkState (_collectionCount s) (_nextTokenId s) (_collections s)
          (<[k := v]> (_tokenToCollection s)) (_owners s) (_balances s)
          (fhe_acl s) (event_log s).

Definition set_owner (k : uint256) (a : address) (s : State) : State :=
  mkState (_collectionCount s) (_nextTokenId s) (_collections s)
          (_tokenToCollection s) (<[k := a]> (_owners s)) (_balances s)
          (fhe_acl s) (event_log s).

Definition set_balance (a : address) (v : uint256) (s : State) : State :=
  mkState (_collectionCount s) (_nextTokenId s) (_collections s)
          (_tokenToCollection s) (_owners s) (<[a := v]> (_balances s))
          (fhe_acl s) (event_log s).

Definition add_grant (h : eaddress) (g : Grantee) (s : State) : State :=
  mkState (_collectionCount s) (_nextTokenId s) (_collections s)
          (_tokenToCollection s) (_owners s) (_balances s)
          (fhe_acl s ++ [(h, g)]) (event_log s).

Definition add_event (e : Event) (s : State) : State :=
  mkState (_collectionCount s) (_nextTokenId s) (_collections s)
          (_tokenToCollection s) (_owners s) (_balances s)
          (fhe_acl s) (event_log s ++ [e]).

(** [seqN m len] is [m, m+1, ..., m+len-1]. *)
Definition seqN (m len : N) : list N :=
  (fun k => m + N.of_nat k) <$> seq 0 (N.to_nat len).

(** Reading a mapping slot: an unset key reads as the zero value. *)
Definition collection_at (s : State) (k : uint256) : Collection.t :=
  default Collection.zero (_collections s !! k).

Definition tokenToCollection_at (s : State) (k : uint256) : uint256 :=
  default 0 (_tokenToCollection s !! k).

Definition owner_at (s : State) (k : uint256) : address :=
  default address_zero (_owners s !! k).

Definition balance_at (s : State) (a : address) : uint256 :=
  default 0 (_balances s !! a).

(** ** The execution monad

    A function body runs on the storage and either returns or reverts.
    [M] keeps the storage reached at the point of the revert, so that what a
    body wrote before failing stays visible; the roll-back of the EVM is
    applied once, by [transact]. *)

Definition M (A : Type) : Type := State -> Result A * State.

Definition ret {A} (a : A) : M A := fun s => (Ok a, s).

Definition bind {A B} (m : M A) (k : A -> M B) : M B :=
  fun s =>
    match m s with
    | (Ok a, s') => k a s'
    | (Revert e, s') => (Revert e, s')
    end.

Definition revert {A} (e : Error) : M A := fun s => (Revert e, s).

Definition sload {A} (f : State -> A) : M A := fun s => (Ok (f s), s).

Definition sstore (f : State -> State) : M unit := fun s => (Ok tt, f s).

Declare Scope sol_scope.
Delimit Scope sol_scope with sol.
Notation "'let!' x ':=' m 'in' k" := (bind m (fun x => k))
  (at level 10, x name, m at level 100, k at level 200) : sol_scope.
Notation "m '>>' k" := (bind m (fun _ => k))
  (at level 100, k at level 200, right associativity) : sol_scope.

(** [if (cond) revert E();] *)
Definition revert_if (cond : bool) (e : Error) : M unit :=
  if cond then revert e else ret tt.

(** Checked [uint256] addition of Solidity 0.8. *)
Definition add_checked (a b : uint256) : Result uint256 :=
  if a + b <=? MAX_UINT256 then Ok (a + b) else Revert (Panic 17).

Definition checked_add (a b : uint256) : M uint256 :=
  fun s => (add_checked a b, s).

Definition emit (e : Event) : M unit := sstore (add_event e).

(** What a transaction leaves behind: the new storage on success, the
    storage it started from on a revert. *)
Definition transact {A} (m : M A) (s : State) : Result A * State :=
  match m s with
  | (Ok a, s') => (Ok a, s')
  | (Revert e, _) => (Revert e, s)
  end.

(** ** The web client ([app/src/components])

    The pure parts of the React components that read the contract.  A
    JavaScript string is its sequence of UTF-16 code units, a [bigint] an
    integer of [Z]; a string literal of the source is kept as a [string]. *)

Definition js_string := list N.

(** An ASCII literal as a JavaScript string. *)
Definition js (s : string) : js_string :=
  (fun c => Ascii.N_of_ascii c) <$> list_ascii_of_string s.

(** [String.prototype.slice(start, end)]: a negative index counts from the
    end, an index beyond either end is clamped, [None] is an omitted [end]. *)
Definition js_slice (s : js_string) (start : Z) (end_ : option Z) : js_string :=
  let len := Z.of_nat (length s) in
  let clamp := fun k : Z => if (k <? 0)%Z then Z.max (len + k) 0 else Z.min k len in
  let from := clamp start in
  let to := match end_ with None => len | Some e => clamp e end in
  take (Z.to_nat (to - from)) (drop (Z.to_nat from) s).

(** [formatAddress(address?: string)] of [CollectionCard.tsx]; [None] is
    [undefined], and [!address] also holds of the empty string. *)
Definition formatAddress (address : option js_string) : js_string :=
  match address with
  | None => []
  | Some [] => []
  | Some a => js_slice a 0 (Some 6%Z) ++ js "..." ++ js_slice a (-4) None
  end.

Module ClientCollection.
Record t := mk {
  id : Z;
  name : js_string;
  maxSupply : Z;
  minted : Z;
  creator : js_string;
  baseTokenId : Z;
  hiddenOwner : js_string
}.
End ClientCollection.

(** How the ABI decoder of the wallet library (outside this repository)
    renders a [string], an [address] and a [bytes32]; a [uint256] comes out
    as the [bigint] of the same value. *)
Record AbiDecoder := mkAbiDecoder {
  decode_string : string -> js_string;
  decode_address : address -> js_string;
  decode_bytes32 : N -> js_string
}.

Definition decode_collection (abi : AbiDecoder) (item : CollectionView.t)
  : ClientCollection.t :=
  ClientCollection.mk
    (Z.of_N (CollectionView.id item))
    (decode_string abi (CollectionView.name item))
    (Z.of_N (CollectionView.maxSupply item))
    (Z.of_N (CollectionView.minted item))
    (decode_address abi (CollectionView.creator item))
    (Z.of_N (CollectionView.baseTokenId item))
    (decode_bytes32 abi (CollectionView.hiddenOwner item)).

(** [NovaMintApp]: [collections] is [[]] while [data] is [undefined], else
    one entry per item of the result of [getAllCollections]. *)
Definition collections (abi : AbiDecoder) (data : option (list CollectionView.t))
  : list ClientCollection.t :=
  match data with
  | None => []
  | Some items => decode_collection abi <$> items
  end.

(** [collections.reduce((acc, collection) => acc + collection.minted, 0n)] *)
Definition totalMinted (cs : list ClientCollection.t) : Z :=
  fold_left (fun acc collection => (acc + ClientCollection.minted collection)%Z) cs 0%Z.

(** [collections.reduce((acc, collection) => acc + collection.maxSupply, 0n)] *)
Definition totalSupply (cs : list ClientCollection.t) : Z :=
  fold_left (fun acc collection => (acc + ClientCollection.maxSupply collection)%Z) cs 0%Z.

(** [CollectionCard]: [supplyLeft = collection.maxSupply - collection.minted]. *)
Definition supplyLeft (collection : ClientCollection.t) : Z :=
  (ClientCollection.maxSupply collection - ClientCollection.minted collection)%Z.

(** The number in the "left" caption: [supplyLeft >= 0n ? supplyLeft : 0n]. *)
Definition supplyLeftShown (collection : ClientCollection.t) : Z :=
  if (supplyLeft collection >=? 0)%Z then supplyLeft collection else 0%Z.

(** [disabled={isMinting || zamaLoading || supplyLeft <= 0n}] of the mint
    button. *)
Definition mintButtonDisabled (isMinting zamaLoading : bool)
    (collection : ClientCollection.t) : bool :=
  isMinting || zamaLoading || (supplyLeft collection <=? 0)%Z.

(** Its label:
    [isMinting ? 'Minting...' : supplyLeft > 0n ? 'Mint NFT' : 'Sold out']. *)
Definition mintButtonLabel (isMinting : bool) (collection : ClientCollection.t) : string :=
  if isMinting then "Minting..."
  else if (supplyLeft collection >? 0)%Z then "Mint NFT" else "Sold out".

(** ** The contract *)

Section NovaMint.

(** [FHE.fromExternal(handle, proof)] of [@fhevm/solidity], which is not
    part of this repository: it returns the internal handle, or reverts
    ([None]) when the proof does not validate for (this contract, sender). *)
Variable FHE_fromExternal : externalEaddress -> bytes -> address -> option eaddress.

Local Open Scope sol_scope.

Definition fromExternal (h : externalEaddress) (proof : bytes) (msg_sender : address)
  : M eaddress :=
  match FHE_fromExternal h proof msg_sender with
  | Some e => ret e
  | None => revert InvalidEncryptedInput
  end.

(** [FHE.allowThis] / [FHE.allow] on a handle just returned by
    [FHE.fromExternal]: the grant is recorded; the ACL accepts it. *)
Definition allowThis (h : eaddress) : M unit := sstore (add_grant h ThisContract).
Definition allow (h : eaddress) (a : address) : M unit := sstore (add_grant h (Account a)).

(** [modifier onlyCollectionOwner(uint256 id)] wrapped around a body. *)
Definition onlyCollectionOwner {A} (msg_sender : address) (id : uint256) (body : M A) : M A :=
  let! ex := sload (fun s => Collection.exists_ (collection_at s id)) in
  revert_if (negb ex) InvalidCollection >>
  let! cr := sload (fun s => Collection.creator (collection_at s id)) in
  revert_if (negb (cr =? msg_sender)) NotCollectionOwner >>
  body.

Definition createCollection (msg_sender : address) (collectionName : string)
    (maxSupply : uint256) (hiddenOwnerInput : externalEaddress) (inputProof : bytes)
  : M uint256 :=
  revert_if (Nat.eqb (String.length collectionName) 0) EmptyName >>
  revert_if (maxSupply =? 0) InvalidSupply >>
  let! encryptedOwner := fromExternal hiddenOwnerInput inputProof msg_sender in
  allowThis encryptedOwner >>
  allow encryptedOwner msg_sender >>
  (* collectionId = ++_collectionCount; *)
  let! count := sload _collectionCount in
  let! collectionId := checked_add count 1 in
  sstore (set_collectionCount collectionId) >>
  let! baseId := sload _nextTokenId in
  (* _nextTokenId += maxSupply; *)
  let! next := checked_add baseId maxSupply in
  sstore (set_nextTokenId next) >>
  sstore (set_collection collectionId
            (Collection.mk collectionName maxSupply 0 msg_sender baseId encryptedOwner true)) >>
  emit (CollectionCreated collectionId msg_sender collectionName maxSupply encryptedOwner) >>
  ret collectionId.

Definition setHiddenOwner (msg_sender : address) (collectionId : uint256)
    (hiddenOwnerInput : externalEaddress) (inputProof : bytes) : M unit :=
  onlyCollectionOwner msg_sender collectionId (
    let! encryptedOwner := fromExternal hiddenOwnerInput inputProof msg_sender in
    let! c := sload (fun s => collection_at s collectionId) in
    sstore (set_collection collectionId (Collection.with_hiddenOwner encryptedOwner c)) >>
    allowThis encryptedOwner >>
    allow encryptedOwner msg_sender >>
    emit (HiddenOwnerUpdated collectionId encryptedOwner)).

Definition mint (msg_sender : address) (collectionId : uint256) : M uint256 :=
  (* Collection storage collection = _collections[collectionId]; *)
  let collection := fun s => collection_at s collectionId in
  let! ex := sload (fun s => Collection.exists_ (collection s)) in
  revert_if (negb ex) InvalidCollection >>
  let! m := sload (fun s => Collection.minted (collection s)) in
  let! cap := sload (fun s => Collection.maxSupply (collection s)) in
  revert_if (cap <=? m) SupplyExhausted >>
  let! base := sload (fun s => Collection.baseTokenId (collection s)) in
  let! m0 := sload (fun s => Collection.minted (collection s)) in
  let! tokenId := checked_add base m0 in
  (* collection.minted += 1; *)
  let! m1 := sload (fun s => Collection.minted (collection s)) in
  let! m1' := checked_add m1 1 in
  let! c := sload collection in
  sstore (set_collection collectionId (Collection.with_minted m1' c)) >>
  sstore (set_owner tokenId msg_sender) >>
  (* _balances[msg.sender] += 1; *)
  let! bal := sload (fun s => balance_at s msg_sender) in
  let! bal' := checked_add bal 1 in
  sstore (set_balance msg_sender bal') >>
  sstore (set_tokenToCollection tokenId collectionId) >>
  emit (Minted collectionId tokenId msg_sender) >>
  emit (Transfer address_zero msg_sender tokenId) >>
  ret tokenId.

(** *** View functions: they read the storage and cannot write it. *)

Definition getCollection (collectionId : uint256) (s : State) : Result CollectionView.t :=
  let collection := collection_at s collectionId in
  if negb (Collection.exists_ collection) then Revert InvalidCollection
  else Ok (CollectionView.mk collectionId
             (Collection.name collection) (Collection.maxSupply collection)
             (Collection.minted collection) (Collection.creator collection)
             (Collection.baseTokenId collection) (Collection.hiddenOwner collection)).

(** [for (uint256 i = 0; i < count; i++) body]: the bound is a local that
    the body does not change, so the loop visits [0, 1, ..., count-1]. *)
Fixpoint for_range {A} (indices : list uint256) (body : uint256 -> A -> Result A) (acc : A)
  : Result A :=
  match indices with
  | [] => Ok acc
  | i :: rest =>
      match body i acc with
      | Ok acc' => for_range rest body acc'
      | Revert e => Revert e
      end
  end.

(** [arr[i] = v] on a memory array: out of range is [Panic(0x32)]. *)
Definition array_store {A} (arr : list A) (i : uint256) (v : A) : Result (list A) :=
  if (N.to_nat i <? length arr)%nat then Ok (<[N.to_nat i := v]> arr)
  else Revert (Panic 50).

Definition getAllCollections (s : State) : Result (list CollectionView.t) :=
  let count := _collectionCount s in
  let allCollections := replicate (N.to_nat count) CollectionView.zero in
  for_range (seqN 0 count)
    (fun i arr =>
       match add_checked i 1 with
       | Ok j =>
           match getCollection j s with
           | Ok v => array_store arr i v
           | Revert e => Revert e
           end
       | Revert e => Revert e
       end)
    allCollections.

Definition hiddenOwner (collectionId : uint256) (s : State) : Result eaddress :=
  if negb (Collection.exists_ (collection_at s collectionId)) then Revert InvalidCollection
  else Ok (Collection.hiddenOwner (collection_at s collectionId)).

Definition totalCollections (s : State) : Result uint256 := Ok (_collectionCount s).

Definition name : string := "NovaMint".
Definition symbol : string := "NOVA".

Definition mintedCount (collectionId : uint256) (s : State) : Result uint256 :=
  if negb (Collection.exists_ (collection_at s collectionId)) then Revert InvalidCollection
  else Ok (Collection.minted (collection_at s collectionId)).

Definition ownerOf (tokenId : uint256) (s : State) : Result address :=
  let owner := owner_at s tokenId in
  if owner =? address_zero then Revert InvalidToken else Ok owner.

Definition balanceOf (owner : address) (s : State) : Result uint256 :=
  if owner =? address_zero then Revert ZeroAddress else Ok (balance_at s owner).

Definition tokenCollection (tokenId : uint256) (s : State) : Result uint256 :=
  let collectionId := tokenToCollection_at s tokenId in
  if collectionId =? 0 then Revert InvalidToken else Ok collectionId.

Definition tokenExists (tokenId : uint256) (s : State) : Result bool :=
  Ok (negb (owner_at s tokenId =? address_zero)).

(** *** Transactions *)

Inductive Call :=
| CreateCollection (msg_sender : address) (collectionName : string) (maxSupply : uint256)
                   (hiddenOwnerInput : externalEaddress) (inputProof : bytes)
| SetHiddenOwner (msg_sender : address) (collectionId : uint256)
                 (hiddenOwnerInput : externalEaddress) (inputProof : bytes)
| Mint (msg_sender : address) (collectionId : uint256).

Definition sender_of (c : Call) : address :=
  match c with
  | CreateCollection a _ _ _ _ => a
  | SetHiddenOwner a _ _ _ => a
  | Mint a _ => a
  end.

(** Return data of a call: an id for [createCollection] and [mint]. *)
Inductive Output :=
| OutUint (n : uint256)
| OutNone.

Definition dispatch (c : Call) : M Output :=
  match c with
  | CreateCollection a nm cap h p =>
      let! r := createCollection a nm cap h p in ret (OutUint r)
  | SetHiddenOwner a cid h p =>
      setHiddenOwner a cid h p >> ret OutNone
  | Mint a cid =>
      let! r := mint a cid in ret (OutUint r)
  end.

(** One transaction: the body, then roll-back on revert. *)
Definition exec (c : Call) (s : State) : Result Output * State :=
  transact (dispatch c) s.

(** A sequence of transactions, with the outcome of each. *)
Fixpoint run (calls : list Call) (s : State) : list (Call * Result Output) * State :=
  match calls with
  | [] => ([], s)
  | c :: rest =>
      let (r, s1) := exec c s in
      let (h, s2) := run rest s1 in
      ((c, r) :: h, s2)
  end.

Definition history (calls : list Call) : list (Call * Result Output) :=
  fst (run calls initial_state).

Definition final_state (calls : list Call) : State :=
  snd (run calls initial_state).

(** *** Storage a body leaves when it runs to its end *)

Definition mint_post (a : address) (cid : uint256) (s : State) : State :=
  let c := collection_at s cid in
  let t := Collection.baseTokenId c + Collection.minted c in
  add_event (Transfer address_zero a t)
    (add_event (Minted cid t a)
      (set_tokenToCollection t cid
        (set_balance a (balance_at s a + 1)
          (set_owner t a
            (set_collection cid (Collection.with_minted (Collection.minted c + 1) c) s))))).

Definition createCollection_post (a : address) (nm : string) (cap : uint256)
    (h : eaddress) (s : State) : State :=
  let cid := _collectionCount s + 1 in
  add_event (CollectionCreated cid a nm cap h)
    (set_collection cid (Collection.mk nm cap 0 a (_nextTokenId s) h true)
      (set_nextTokenId (_nextTokenId s + cap)
        (set_collectionCount cid
          (add_grant h (Account a) (add_grant h ThisContract s))))).

Definition setHiddenOwner_post (a : address) (cid : uint256) (h : eaddress) (s : State)
  : State :=
  add_event (HiddenOwnerUpdated cid h)
    (add_grant h (Account a)
      (add_grant h ThisContract
        (set_collection cid (Collection.with_hiddenOwner h (collection_at s cid)) s))).

(** *** A stand-in for the FHE library and a sample session

    [mock_fromExternal] accepts any non-empty proof and derives the
    internal handle from the external one, as the FHEVM mock of the test
    suite hands back a deterministic handle. *)

Definition mock_fromExternal (h : externalEaddress) (proof : bytes) (a : address)
  : option eaddress :=
  match proof with
  | [] => None
  | _ :: _ => Some (h + 1000)
  end.

Definition alice : address := 10.
Definition bob : address := 11.
Definition carol : address := 12.
Definition some_proof : bytes := [Byte.x01].

(** A stand-in for the wallet library's decoder: names are taken as ASCII,
    an account or a handle is shown as "0x" followed by its number as one
    code unit. *)
Definition mock_abi : AbiDecoder :=
  mkAbiDecoder js (fun a => js "0x" ++ [a]) (fun h => js "0x" ++ [h]).

(** The first scenario of the test suite: "Genesis" with supply 2 by
    alice, then one mint by bob. *)
Definition genesis_created : list Call :=
  [CreateCollection alice "Genesis" 2 7 some_proof; Mint bob 1].

(** ... and a second mint, by carol, which exhausts the supply. *)
Definition genesis_sold_out : list Call :=
  genesis_created ++ [Mint carol 1].

(** *** Successful transactions as a step relation

    [step s c o s'] holds when call [c] on storage [s] runs to its end,
    returns [o] and leaves [s']; [exec_Ok_iff] below ties it to [exec]. *)

Inductive step (s : State) : Call -> Output -> State -> Prop :=
| step_createCollection a nm cap h p e :
    String.length nm <> 0%nat ->
    cap <> 0 ->
    FHE_fromExternal h p a = Some e ->
    _collectionCount s + 1 <= MAX_UINT256 ->
    _nextTokenId s + cap <= MAX_UINT256 ->
    step s (CreateCollection a nm cap h p)
           (OutUint (_collectionCount s + 1)) (createCollection_post a nm cap e s)
| step_setHiddenOwner a cid h p e :
    Collection.exists_ (collection_at s cid) = true ->
    Collection.creator (collection_at s cid) = a ->
    FHE_fromExternal h p a = Some e ->
    step s (SetHiddenOwner a cid h p) OutNone (setHiddenOwner_post a cid e s)
| step_mint a cid :
    let c := collection_at s cid in
    Collection.exists_ c = true ->
    Collection.minted c < Collection.maxSupply c ->
    Collection.baseTokenId c + Collection.minted c <= MAX_UINT256 ->
    Collection.minted c + 1 <= MAX_UINT256 ->
    balance_at s a + 1 <= MAX_UINT256 ->
    step s (Mint a cid)
           (OutUint (Collection.baseTokenId c + Collection.minted c)) (mint_post a cid s).

(** *** Quantities the properties speak of *)

Fixpoint sumN (f : N -> N) (l : list N) : N :=
  match l with
  | [] => 0
  | x :: r => f x + sumN f r
  end.

Fixpoint countN {A} (f : A -> bool) (l : list A) : N :=
  match l with
  | [] => 0
  | x :: r => (if f x then 1 else 0) + countN f r
  end.

(** Ids of the collections created so far: [1 .. _collectionCount]. *)
Definition collection_ids (s : State) : list uint256 :=
  seqN 1 (_collectionCount s).

Definition total_minted (s : State) : N :=
  sumN (fun i => Collection.minted (collection_at s i)) (collection_ids s).

Definition total_supply (s : State) : N :=
  sumN (fun i => Collection.maxSupply (collection_at s i)) (collection_ids s).

(** [t] lies in the reserved range [[baseTokenId, baseTokenId + maxSupply - 1]]. *)
Definition in_range (c : Collection.t) (t : uint256) : Prop :=
  Collection.baseTokenId c <= t <= Collection.baseTokenId c + Collection.maxSupply c - 1.

(** A successful [mint] by [p] in a history entry. *)
Definition is_mint_by (p : address) (entry : Call * Result Output) : bool :=
  match entry with
  | (Mint a _, Ok _) => a =? p
  | _ => false
  end.

Definition is_mint (entry : Call * Result Output) : bool :=
  match entry with
  | (Mint _ _, Ok _) => true
  | _ => false
  end.

(** Number of successful [mint] calls made by [p]. *)
Definition mints_by (p : address) (h : list (Call * Result Output)) : N :=
  countN (is_mint_by p) h.

(** Number of successful [mint] calls. *)
Definition successful_mints (h : list (Call * Result Output)) : N :=
  countN is_mint h.

(** Ids returned by the successful [createCollection] calls, in call order. *)
Fixpoint created_ids (h : list (Call * Result Output)) : list uint256 :=
  match h with
  | [] => []
  | (CreateCollection _ _ _ _ _, Ok (OutUint n)) :: r => n :: created_ids r
  | _ :: r => created_ids r
  end.

(** Token ids returned by the successful [mint] calls, in call order. *)
Fixpoint minted_tokens (h : list (Call * Result Output)) : list uint256 :=
  match h with
  | [] => []
  | (Mint _ _, Ok (OutUint t)) :: r => t :: minted_tokens r
  | _ :: r => minted_tokens r
  end.

(** The view of slot [j] of [_collections], as [getCollection] builds it. *)
Definition view_of (s : State) (j : uint256) : CollectionView.t :=
  let collection := collection_at s j in
  CollectionView.mk j
    (Collection.name collection) (Collection.maxSupply collection)
    (Collection.minted collection) (Collection.creator collection)
    (Collection.baseTokenId collection) (Collection.hiddenOwner collection).

(** The value [balanceOf] returns, [0] where it reverts. *)
Definition balanceOf_value (s : State) (p : address) : N :=
  match balanceOf p s with
  | Ok n => n
  | Revert _ => 0
  end.

(** [msg.sender] of a transaction is an account that signed it or a
    contract that made the call, never [address(0)]. *)
Definition sender_nonzero (c : Call) : Prop := sender_of c <> address_zero.

(** *** The storage invariant *)

Record Inv (s : State) : Prop := mkInv {
  inv_count : _collectionCount s <= MAX_UINT256;
  inv_next : _nextTokenId s <= MAX_UINT256;
  inv_absent : forall i, ~ (1 <= i <= _collectionCount s) -> _collections s !! i = None;
  inv_present : forall i, 1 <= i <= _collectionCount s ->
    let c := collection_at s i in
    Collection.exists_ c = true /\
    1 <= Collection.maxSupply c /\
    Collection.minted c <= Collection.maxSupply c /\
    1 <= Collection.baseTokenId c /\
    Collection.baseTokenId c + Collection.maxSupply c <= _nextTokenId s;
  inv_order : forall i j, 1 <= i -> i < j -> j <= _collectionCount s ->
    Collection.baseTokenId (collection_at s i) + Collection.maxSupply (collection_at s i)
    <= Collection.baseTokenId (collection_at s j);
  inv_balance : forall a, balance_at s a <= total_minted s;
  inv_supply : total_supply s + 1 = _nextTokenId s;
  inv_token : forall t, tokenToCollection_at s t <> 0 ->
    let cid := tokenToCollection_at s t in
    1 <= cid <= _collectionCount s /\
    Collection.baseTokenId (collection_at s cid) <= t
      < Collection.baseTokenId (collection_at s cid) + Collection.minted (collection_at s cid);
  inv_token_rev : forall cid t, 1 <= cid <= _collectionCount s ->
    Collection.baseTokenId (collection_at s cid) <= t
      < Collection.baseTokenId (collection_at s cid) + Collection.minted (collection_at s cid) ->
    tokenToCollection_at s t = cid;
  inv_owner : forall t, tokenToCollection_at s t = 0 -> owner_at s t = address_zero
}.

(** Every recorded token has an owner other than [address(0)]. *)
Definition owners_nonzero (s : State) : Prop :=
  forall t, tokenToCollection_at s t <> 0 -> owner_at s t <> address_zero.

(** *** Further quantities of a history *)

(** A successful [mint] on collection [id] in a history entry. *)
Definition is_mint_of (id : uint256) (entry : Call * Result Output) : bool :=
  match entry with
  | (Mint _ cid, Ok _) => cid =? id
  | _ => false
  end.

(** Number of successful [mint] calls on collection [id]. *)
Definition mints_of (id : uint256) (h : list (Call * Result Output)) : N :=
  countN (is_mint_of id) h.

(** The events one history entry stands for: those of the [emit]
    statements of the call when it returned, none when it reverted. *)
Definition events_of (entry : Call * Result Output) : list Event :=
  match entry with
  | (CreateCollection a nm cap h p, Ok (OutUint id)) =>
      match FHE_fromExternal h p a with
      | Some e => [CollectionCreated id a nm cap e]
      | None => []
      end
  | (SetHiddenOwner a cid h p, Ok _) =>
      match FHE_fromExternal h p a with
      | Some e => [HiddenOwnerUpdated cid e]
      | None => []
      end
  | (Mint a cid, Ok (OutUint t)) => [Minted cid t a; Transfer address_zero a t]
  | _ => []
  end.

(** The handle of every existing collection is readable by the contract
    and by the collection's creator. *)
Definition handles_granted (s : State) : Prop :=
  forall i, Collection.exists_ (collection_at s i) = true ->
    (Collection.hiddenOwner (collection_at s i), ThisContract) ∈ fhe_acl s /\
    (Collection.hiddenOwner (collection_at s i),
     Account (Collection.creator (collection_at s i))) ∈ fhe_acl s.

(** Every account a handle was made readable for is the creator of a
    collection. *)
Definition grants_to_creators (s : State) : Prop :=
  forall h a, (h, Account a) ∈ fhe_acl s ->
    exists i, Collection.exists_ (collection_at s i) = true /\
              Collection.creator (collection_at s i) = a.


(** * Properties *)

(** ** Stepping through a body

    Each equation runs the first statement of a body on the storage [s]
    and hands the rest the storage it left. *)

Lemma bind_ret {A B} (a : A) (k : A -> M B) s : bind (ret a) k s = k a s.
Proof. reflexivity. Qed.

Lemma bind_sload {A B} (f : State -> A) (k : A -> M B) s :
  bind (sload f) k s = k (f s) s.
Proof. reflexivity. Qed.

Lemma bind_sstore {B} (f : State -> State) (k : unit -> M B) s :
  bind (sstore f) k s = k tt (f s).
Proof. reflexivity. Qed.

Lemma bind_revert_if {B} (cond : bool) e (k : unit -> M B) s :
  bind (revert_if cond e) k s = if cond then (Revert e, s) else k tt s.
Proof. unfold bind, revert_if. destruct cond; reflexivity. Qed.

Lemma bind_checked_add {B} a b (k : uint256 -> M B) s :
  bind (checked_add a b) k s =
  match add_checked a b with
  | Ok v => k v s
  | Revert e => (Revert e, s)
  end.
Proof. unfold bind, checked_add. destruct (add_checked a b); reflexivity. Qed.

Lemma bind_fromExternal {B} h p a (k : eaddress -> M B) s :
  bind (fromExternal h p a) k s =
  match FHE_fromExternal h p a with
  | Some e => k e s
  | None => (Revert InvalidEncryptedInput, s)
  end.
Proof. unfold bind, fromExternal. destruct (FHE_fromExternal h p a); reflexivity. Qed.

Ltac sol_step :=
  first [ rewrite bind_sload | rewrite bind_sstore | rewrite bind_revert_if
        | rewrite bind_checked_add | rewrite bind_fromExternal | rewrite bind_ret ];
  cbv beta.

Lemma add_checked_Ok a b v :
  add_checked a b = Ok v <-> a + b <= MAX_UINT256 /\ v = a + b.
Proof.
  unfold add_checked. destruct (N.leb_spec (a + b) MAX_UINT256).
  - split; [intros [= <-]; auto | intros [_ ->]; reflexivity].
  - split; [discriminate | lia].
Qed.

Lemma add_checked_fits a b : a + b <= MAX_UINT256 -> add_checked a b = Ok (a + b).
Proof. intros H. apply add_checked_Ok; auto. Qed.

Lemma add_checked_Revert a b e :
  add_checked a b = Revert e -> e = Panic 17 /\ MAX_UINT256 < a + b.
Proof.
  unfold add_checked. destruct (N.leb_spec (a + b) MAX_UINT256); [discriminate|].
  intros [= <-]; auto.
Qed.

(** *** The three bodies, statement by statement *)

Lemma mint_unfold a cid s :
  mint a cid s =
  let c := collection_at s cid in
  if negb (Collection.exists_ c) then (Revert InvalidCollection, s)
  else if Collection.maxSupply c <=? Collection.minted c then (Revert SupplyExhausted, s)
  else match add_checked (Collection.baseTokenId c) (Collection.minted c) with
       | Revert e => (Revert e, s)
       | Ok t =>
           match add_checked (Collection.minted c) 1 with
           | Revert e => (Revert e, s)
           | Ok m' =>
               let s1 := set_owner t a (set_collection cid (Collection.with_minted m' c) s) in
               match add_checked (balance_at s a) 1 with
               | Revert e => (Revert e, s1)
               | Ok b' =>
                   (Ok t,
                    add_event (Transfer address_zero a t)
                      (add_event (Minted cid t a)
                         (set_tokenToCollection t cid (set_balance a b' s1))))
               end
           end
       end.
Proof.
  unfold mint, emit. cbv zeta. repeat sol_step.
  destruct (negb _); [reflexivity|]. repeat sol_step.
  destruct (_ <=? _); [reflexivity|]. repeat sol_step.
  destruct (add_checked (Collection.baseTokenId _) _); [|reflexivity]. repeat sol_step.
  destruct (add_checked (Collection.minted _) 1); [|reflexivity]. repeat sol_step.
  change (balance_at (set_owner _ _ (set_collection _ _ s)) a) with (balance_at s a).
  destruct (add_checked (balance_at s a) 1); [|reflexivity]. repeat sol_step.
  reflexivity.
Qed.

Lemma createCollection_unfold a nm cap h p s :
  createCollection a nm cap h p s =
  if Nat.eqb (String.length nm) 0 then (Revert EmptyName, s)
  else if cap =? 0 then (Revert InvalidSupply, s)
  else match FHE_fromExternal h p a with
       | None => (Revert InvalidEncryptedInput, s)
       | Some e =>
           let s1 := add_grant e (Account a) (add_grant e ThisContract s) in
           match add_checked (_collectionCount s) 1 with
           | Revert err => (Revert err, s1)
           | Ok cid =>
               let s2 := set_collectionCount cid s1 in
               match add_checked (_nextTokenId s) cap with
               | Revert err => (Revert err, s2)
               | Ok next =>
                   (Ok cid,
                    add_event (CollectionCreated cid a nm cap e)
                      (set_collection cid (Collection.mk nm cap 0 a (_nextTokenId s) e true)
                         (set_nextTokenId next s2)))
               end
           end
       end.
Proof.
  unfold createCollection, emit, allowThis, allow. repeat sol_step.
  destruct (Nat.eqb _ _); [reflexivity|]. repeat sol_step.
  destruct (cap =? 0); [reflexivity|]. repeat sol_step.
  destruct (FHE_fromExternal h p a); [|reflexivity]. repeat sol_step.
  cbn [_collectionCount add_grant].
  destruct (add_checked (_collectionCount s) 1); [|reflexivity]. repeat sol_step.
  cbn [_nextTokenId add_grant set_collectionCount].
  destruct (add_checked (_nextTokenId s) cap); [|reflexivity]. repeat sol_step.
  reflexivity.
Qed.

Lemma setHiddenOwner_unfold a cid h p s :
  setHiddenOwner a cid h p s =
  let c := collection_at s cid in
  if negb (Collection.exists_ c) then (Revert InvalidCollection, s)
  else if negb (Collection.creator c =? a) then (Revert NotCollectionOwner, s)
  else match FHE_fromExternal h p a with
       | None => (Revert InvalidEncryptedInput, s)
       | Some e => (Ok tt, setHiddenOwner_post a cid e s)
       end.
Proof.
  unfold setHiddenOwner, onlyCollectionOwner, emit, allowThis, allow, setHiddenOwner_post.
  cbv zeta. repeat sol_step.
  destruct (negb (Collection.exists_ _)); [reflexivity|]. repeat sol_step.
  destruct (negb (_ =? _)); [reflexivity|]. repeat sol_step.
  destruct (FHE_fromExternal h p a); [|reflexivity]. repeat sol_step.
  reflexivity.
Qed.

(** *** [exec] against the step relation *)

Ltac case_cond :=
  match goal with
  | |- context [N.leb ?a ?b] => destruct (N.leb_spec a b)
  | |- context [N.eqb ?a ?b] => destruct (N.eqb_spec a b); cbn [negb]
  | |- context [Nat.eqb ?a ?b] => destruct (Nat.eqb_spec a b)
  | |- context [negb ?b] => destruct b eqn:?; cbn [negb]
  | |- context [add_checked ?a ?b] =>
      let H := fresh "Hadd" in
      destruct (add_checked a b) eqn:H;
      [apply add_checked_Ok in H; destruct H as [H ->] | apply add_checked_Revert in H]
  | |- context [FHE_fromExternal ?h ?p ?a] => destruct (FHE_fromExternal h p a) eqn:?
  end.

Lemma exec_Mint a cid s :
  exec (Mint a cid) s =
  match mint a cid s with
  | (Ok t, s') => (Ok (OutUint t), s')
  | (Revert e, _) => (Revert e, s)
  end.
Proof.
  unfold exec, transact, dispatch, bind, ret.
  destruct (mint a cid s) as [[t|e] s1]; reflexivity.
Qed.

Lemma exec_CreateCollection a nm cap h p s :
  exec (CreateCollection a nm cap h p) s =
  match createCollection a nm cap h p s with
  | (Ok t, s') => (Ok (OutUint t), s')
  | (Revert e, _) => (Revert e, s)
  end.
Proof.
  unfold exec, transact, dispatch, bind, ret.
  destruct (createCollection a nm cap h p s) as [[t|e] s1]; reflexivity.
Qed.

Lemma exec_SetHiddenOwner a cid h p s :
  exec (SetHiddenOwner a cid h p) s =
  match setHiddenOwner a cid h p s with
  | (Ok _, s') => (Ok OutNone, s')
  | (Revert e, _) => (Revert e, s)
  end.
Proof.
  unfold exec, transact, dispatch, bind, ret.
  destruct (setHiddenOwner a cid h p s) as [[t|e] s1]; reflexivity.
Qed.

Lemma exec_Revert c s e s' : exec c s = (Revert e, s') -> s' = s.
Proof.
  unfold exec, transact. destruct (dispatch c s) as [[o|e'] s1]; congruence.
Qed.

Lemma step_exec s c o s' : step s c o s' -> exec c s = (Ok o, s').
Proof.
  intros Hstep. destruct Hstep as [a nm cap h p e Hnm Hcap He Hc Hn | a cid h p e Hex Hcr He
                                  | a cid c Hex Hlt Ht Hm Hb].
  - rewrite exec_CreateCollection, createCollection_unfold.
    destruct (Nat.eqb_spec (String.length nm) 0); [contradiction|].
    destruct (N.eqb_spec cap 0); [contradiction|].
    rewrite He. cbv zeta. rewrite !add_checked_fits by assumption. reflexivity.
  - rewrite exec_SetHiddenOwner, setHiddenOwner_unfold. cbv zeta.
    rewrite Hex, Hcr, N.eqb_refl, He. reflexivity.
  - rewrite exec_Mint, mint_unfold. cbv zeta. fold c. rewrite Hex. cbn [negb].
    destruct (N.leb_spec (Collection.maxSupply c) (Collection.minted c)); [lia|].
    rewrite !add_checked_fits by assumption. reflexivity.
Qed.

Lemma exec_step s c o s' : exec c s = (Ok o, s') -> step s c o s'.
Proof.
  destruct c as [a nm cap h p | a cid h p | a cid].
  - rewrite exec_CreateCollection, createCollection_unfold. cbv zeta.
    repeat (case_cond; try discriminate).
    intros [= <- <-]. eapply step_createCollection; eauto.
  - rewrite exec_SetHiddenOwner, setHiddenOwner_unfold. cbv zeta.
    repeat (case_cond; try discriminate).
    intros [= <- <-]. eapply step_setHiddenOwner; eauto.
  - rewrite exec_Mint, mint_unfold. cbv zeta.
    repeat (case_cond; try discriminate).
    intros [= <- <-]. eapply step_mint; eauto.
Qed.

Lemma exec_Ok_iff s c o s' : exec c s = (Ok o, s') <-> step s c o s'.
Proof. split; [apply exec_step | apply step_exec]. Qed.

(** Every transaction either reverts and leaves the storage as it was, or
    takes a step. *)
Lemma exec_cases c s :
  (exists e, exec c s = (Revert e, s)) \/
  (exists o s', exec c s = (Ok o, s') /\ step s c o s').
Proof.
  destruct (exec c s) as [[o|e] s1] eqn:E.
  - right. exists o, s1. split; [reflexivity | apply exec_step; assumption].
  - left. exists e. apply exec_Revert in E as ->. reflexivity.
Qed.

(** *** Reading the storage after a write *)

Ltac read_after_write :=
  cbn; rewrite lookup_insert;
  case_decide; match goal with |- context [N.eqb ?x ?y] => destruct (N.eqb_spec x y) end;
  first [reflexivity | contradiction].

Lemma collection_at_set_collection k c s i :
  collection_at (set_collection k c s) i = if k =? i then c else collection_at s i.
Proof. unfold collection_at, set_collection. read_after_write. Qed.

Lemma collection_at_mint_post a cid s i :
  collection_at (mint_post a cid s) i =
  if cid =? i
  then Collection.with_minted (Collection.minted (collection_at s cid) + 1) (collection_at s cid)
  else collection_at s i.
Proof. unfold mint_post, collection_at. read_after_write. Qed.

Lemma balance_at_mint_post a cid s p :
  balance_at (mint_post a cid s) p =
  if a =? p then balance_at s a + 1 else balance_at s p.
Proof. unfold mint_post, balance_at. read_after_write. Qed.

Lemma tokenToCollection_at_mint_post a cid s t :
  tokenToCollection_at (mint_post a cid s) t =
  if Collection.baseTokenId (collection_at s cid)
     + Collection.minted (collection_at s cid) =? t
  then cid else tokenToCollection_at s t.
Proof. unfold tokenToCollection_at, mint_post, collection_at. read_after_write. Qed.

Lemma owner_at_mint_post a cid s t :
  owner_at (mint_post a cid s) t =
  if Collection.baseTokenId (collection_at s cid)
     + Collection.minted (collection_at s cid) =? t
  then a else owner_at s t.
Proof. unfold owner_at, mint_post, collection_at. read_after_write. Qed.

Lemma collection_at_createCollection_post a nm cap h s i :
  collection_at (createCollection_post a nm cap h s) i =
  if _collectionCount s + 1 =? i
  then Collection.mk nm cap 0 a (_nextTokenId s) h true
  else collection_at s i.
Proof. unfold collection_at, createCollection_post. read_after_write. Qed.

Lemma collection_at_setHiddenOwner_post a cid h s i :
  collection_at (setHiddenOwner_post a cid h s) i =
  if cid =? i
  then Collection.with_hiddenOwner h (collection_at s cid)
  else collection_at s i.
Proof. unfold setHiddenOwner_post, collection_at. read_after_write. Qed.

(** *** Ranges and sums *)

Lemma seqN_succ m n : seqN m (n + 1) = seqN m n ++ [m + n].
Proof.
  unfold seqN. replace (N.to_nat (n + 1)) with (S (N.to_nat n)) by lia.
  rewrite seq_S, fmap_app. cbn. rewrite N2Nat.id. reflexivity.
Qed.

Lemma elem_of_seqN m n x : x ∈ seqN m n <-> m <= x < m + n.
Proof.
  unfold seqN. rewrite list_elem_of_fmap. split.
  - intros (k & -> & Hk). apply elem_of_seq in Hk. lia.
  - intros Hx. exists (N.to_nat (x - m)). split; [lia|].
    apply elem_of_seq. lia.
Qed.

Lemma NoDup_seqN m n : NoDup (seqN m n).
Proof.
  unfold seqN. apply NoDup_fmap_2; [|apply NoDup_seq].
  intros x y Hxy. lia.
Qed.

Lemma length_seqN m n : length (seqN m n) = N.to_nat n.
Proof. unfold seqN. rewrite length_fmap, length_seq. reflexivity. Qed.

Lemma lookup_seqN m n (k : nat) :
  (k < N.to_nat n)%nat -> seqN m n !! k = Some (m + N.of_nat k).
Proof.
  intros Hk. unfold seqN. rewrite list_lookup_fmap, lookup_seq_lt by assumption.
  reflexivity.
Qed.

Lemma sumN_app f l1 l2 : sumN f (l1 ++ l2) = sumN f l1 + sumN f l2.
Proof. induction l1 as [|x l1 IH]; cbn; [reflexivity | rewrite IH; lia]. Qed.

Lemma sumN_ext f g l : (forall x, x ∈ l -> f x = g x) -> sumN f l = sumN g l.
Proof.
  induction l as [|x l IH]; intros H; cbn; [reflexivity|].
  rewrite H by apply list_elem_of_here.
  rewrite IH; [reflexivity|]. intros y Hy. apply H. apply list_elem_of_further, Hy.
Qed.

Lemma sumN_le f g l : (forall x, x ∈ l -> f x <= g x) -> sumN f l <= sumN g l.
Proof.
  induction l as [|x l IH]; intros H; cbn; [lia|].
  specialize (H x (list_elem_of_here _ _)) as Hx.
  assert (sumN f l <= sumN g l).
  { apply IH. intros y Hy. apply H. apply list_elem_of_further, Hy. }
  lia.
Qed.

Lemma sumN_lt f g l c :
  (forall x, x ∈ l -> f x <= g x) -> c ∈ l -> f c < g c -> sumN f l < sumN g l.
Proof.
  induction l as [|x l IH]; intros H Hc Hlt; [inversion Hc|]. cbn.
  specialize (H x (list_elem_of_here _ _)) as Hx.
  assert (Hrest : forall y, y ∈ l -> f y <= g y).
  { intros y Hy. apply H. apply list_elem_of_further, Hy. }
  apply elem_of_cons in Hc as [->|Hc].
  - pose proof (sumN_le f g l Hrest). lia.
  - specialize (IH Hrest Hc Hlt). lia.
Qed.

(** Raising [f] by one at a single index of a duplicate-free list raises
    the sum by one. *)
Lemma sumN_bump f g l c :
  NoDup l -> c ∈ l -> g c = f c + 1 ->
  (forall x, x ∈ l -> x <> c -> g x = f x) ->
  sumN g l = sumN f l + 1.
Proof.
  induction l as [|x l IH]; intros Hnd Hc Hg Hother; [inversion Hc|]. cbn.
  apply NoDup_cons in Hnd as [Hx Hnd].
  apply elem_of_cons in Hc as [->|Hc].
  - rewrite Hg. rewrite (sumN_ext g f l); [lia|].
    intros y Hy. apply Hother; [apply list_elem_of_further, Hy|].
    intros ->. contradiction.
  - rewrite IH; auto.
    + rewrite Hother; [lia | apply list_elem_of_here |].
      intros ->. contradiction.
    + intros y Hy Hne. apply Hother; [apply list_elem_of_further, Hy | assumption].
Qed.

Lemma sumN_plus f g l : sumN (fun x => f x + g x) l = sumN f l + sumN g l.
Proof. induction l as [|x l IH]; cbn; [reflexivity | rewrite IH; lia]. Qed.

Lemma sumN_zero l : sumN (fun _ => 0) l = 0.
Proof. induction l as [|x l IH]; cbn; [reflexivity | rewrite IH; reflexivity]. Qed.

(** The indicator of one member of a duplicate-free list sums to one. *)
Lemma sumN_indicator a l :
  NoDup l -> a ∈ l -> sumN (fun p => if a =? p then 1 else 0) l = 1.
Proof.
  intros Hnd Ha.
  rewrite (sumN_bump (fun _ => 0) (fun p => if a =? p then 1 else 0) l a Hnd Ha).
  - rewrite sumN_zero. reflexivity.
  - rewrite N.eqb_refl. reflexivity.
  - intros x _ Hne. destruct (N.eqb_spec a x); [congruence | reflexivity].
Qed.

(** *** Fields a step leaves alone *)

Lemma frame_mint a cid s :
  _collectionCount (mint_post a cid s) = _collectionCount s /\
  _nextTokenId (mint_post a cid s) = _nextTokenId s.
Proof. split; reflexivity. Qed.

Lemma frame_setHiddenOwner a cid h s :
  _collectionCount (setHiddenOwner_post a cid h s) = _collectionCount s /\
  _nextTokenId (setHiddenOwner_post a cid h s) = _nextTokenId s /\
  (forall p, balance_at (setHiddenOwner_post a cid h s) p = balance_at s p) /\
  (forall t, tokenToCollection_at (setHiddenOwner_post a cid h s) t = tokenToCollection_at s t) /\
  (forall t, owner_at (setHiddenOwner_post a cid h s) t = owner_at s t).
Proof. repeat split; reflexivity. Qed.

Lemma frame_createCollection a nm cap h s :
  _collectionCount (createCollection_post a nm cap h s) = _collectionCount s + 1 /\
  _nextTokenId (createCollection_post a nm cap h s) = _nextTokenId s + cap /\
  (forall p, balance_at (createCollection_post a nm cap h s) p = balance_at s p) /\
  (forall t, tokenToCollection_at (createCollection_post a nm cap h s) t
             = tokenToCollection_at s t) /\
  (forall t, owner_at (createCollection_post a nm cap h s) t = owner_at s t).
Proof. repeat split; reflexivity. Qed.

(** *** The invariant holds initially and is kept by every step *)

Lemma collection_at_absent s i : _collections s !! i = None -> collection_at s i = Collection.zero.
Proof. unfold collection_at. intros ->. reflexivity. Qed.

Lemma Inv_exists s i :
  Inv s -> Collection.exists_ (collection_at s i) = true -> 1 <= i <= _collectionCount s.
Proof.
  intros HI Hex.
  destruct (N.le_gt_cases 1 i) as [H1|H1], (N.le_gt_cases i (_collectionCount s)) as [H2|H2];
    try (split; assumption).
  all: rewrite (collection_at_absent s i) in Hex by (apply (inv_absent s HI); lia);
    discriminate.
Qed.

Lemma Inv_exists_iff s i :
  Inv s -> Collection.exists_ (collection_at s i) = true <-> 1 <= i <= _collectionCount s.
Proof.
  intros HI. split; [apply Inv_exists; assumption|].
  intros Hi. apply (inv_present s HI i Hi).
Qed.

Lemma Inv_next_pos s : Inv s -> 1 <= _nextTokenId s.
Proof. intros HI. rewrite <- (inv_supply s HI). lia. Qed.

Lemma Inv_initial : Inv initial_state.
Proof.
  constructor; cbn; try (unfold MAX_UINT256; cbn; lia); try reflexivity.
  intros t H. exfalso. apply H. reflexivity.
Qed.

Lemma collection_ids_elem s i : i ∈ collection_ids s <-> 1 <= i <= _collectionCount s.
Proof. unfold collection_ids. rewrite elem_of_seqN. lia. Qed.

Lemma total_minted_mint a cid s :
  1 <= cid <= _collectionCount s ->
  total_minted (mint_post a cid s) = total_minted s + 1.
Proof.
  intros Hcid. unfold total_minted.
  change (collection_ids (mint_post a cid s)) with (collection_ids s).
  apply (sumN_bump _ _ _ cid).
  - apply NoDup_seqN.
  - apply collection_ids_elem, Hcid.
  - rewrite collection_at_mint_post, N.eqb_refl. reflexivity.
  - intros x _ Hne. rewrite collection_at_mint_post.
    destruct (N.eqb_spec cid x); [congruence | reflexivity].
Qed.

Lemma total_supply_mint a cid s :
  total_supply (mint_post a cid s) = total_supply s.
Proof.
  unfold total_supply.
  change (collection_ids (mint_post a cid s)) with (collection_ids s).
  apply sumN_ext. intros x _. rewrite collection_at_mint_post.
  destruct (N.eqb_spec cid x) as [->|]; reflexivity.
Qed.

Lemma totals_setHiddenOwner a cid h s :
  total_minted (setHiddenOwner_post a cid h s) = total_minted s /\
  total_supply (setHiddenOwner_post a cid h s) = total_supply s.
Proof.
  unfold total_minted, total_supply.
  change (collection_ids (setHiddenOwner_post a cid h s)) with (collection_ids s).
  split; apply sumN_ext; intros x _; rewrite collection_at_setHiddenOwner_post;
    destruct (N.eqb_spec cid x) as [->|]; reflexivity.
Qed.

Lemma totals_createCollection a nm cap h s :
  total_minted (createCollection_post a nm cap h s) = total_minted s /\
  total_supply (createCollection_post a nm cap h s) = total_supply s + cap.
Proof.
  unfold total_minted, total_supply.
  change (collection_ids (createCollection_post a nm cap h s))
    with (seqN 1 (_collectionCount s + 1)).
  rewrite seqN_succ, !sumN_app. cbn [sumN].
  rewrite !collection_at_createCollection_post.
  replace (1 + _collectionCount s) with (_collectionCount s + 1) by lia.
  rewrite N.eqb_refl. cbn [Collection.minted Collection.maxSupply].
  assert (Hold : forall x, x ∈ seqN 1 (_collectionCount s) ->
                 collection_at (createCollection_post a nm cap h s) x = collection_at s x).
  { intros x Hx. apply elem_of_seqN in Hx. rewrite collection_at_createCollection_post.
    destruct (N.eqb_spec (_collectionCount s + 1) x); [lia | reflexivity]. }
  split.
  - rewrite (sumN_ext _ (fun i => Collection.minted (collection_at s i))).
    + unfold collection_ids. lia.
    + intros x Hx. rewrite Hold by assumption. reflexivity.
  - rewrite (sumN_ext _ (fun i => Collection.maxSupply (collection_at s i))).
    + unfold collection_ids. lia.
    + intros x Hx. rewrite Hold by assumption. reflexivity.
Qed.

Lemma Inv_createCollection a nm cap h s :
  Inv s -> cap <> 0 ->
  _collectionCount s + 1 <= MAX_UINT256 -> _nextTokenId s + cap <= MAX_UINT256 ->
  Inv (createCollection_post a nm cap h s).
Proof.
  intros HI Hcap Hc Hn.
  pose proof (Inv_next_pos s HI) as Hpos.
  destruct (frame_createCollection a nm cap h s) as (Fc & Fn & Fb & Ft & Fo).
  destruct (totals_createCollection a nm cap h s) as (Tm & Ts).
  assert (Hold : forall i, i <= _collectionCount s ->
            collection_at (createCollection_post a nm cap h s) i = collection_at s i).
  { intros i Hi. rewrite collection_at_createCollection_post.
    destruct (N.eqb_spec (_collectionCount s + 1) i); [lia | reflexivity]. }
  assert (Hnew : collection_at (createCollection_post a nm cap h s) (_collectionCount s + 1)
                 = Collection.mk nm cap 0 a (_nextTokenId s) h true).
  { rewrite collection_at_createCollection_post, N.eqb_refl. reflexivity. }
  constructor; rewrite ?Fc, ?Fn, ?Tm, ?Ts.
  - assumption.
  - assumption.
  - intros i Hi. unfold createCollection_post. cbn.
    rewrite lookup_insert_ne by lia. apply (inv_absent s HI). lia.
  - intros i Hi. cbv zeta.
    destruct (N.eq_dec i (_collectionCount s + 1)) as [->|Hne].
    + rewrite Hnew. cbn. repeat split; lia.
    + rewrite Hold by lia.
      pose proof (inv_present s HI i ltac:(lia)) as Hp. cbv zeta in Hp. intuition lia.
  - intros i j Hi Hij Hj.
    destruct (N.eq_dec j (_collectionCount s + 1)) as [->|Hne].
    + rewrite Hnew, Hold by lia. cbn.
      pose proof (inv_present s HI i ltac:(lia)) as Hp. cbv zeta in Hp. intuition lia.
    + rewrite !Hold by lia. apply (inv_order s HI); lia.
  - intros p. rewrite Fb. apply (inv_balance s HI).
  - pose proof (inv_supply s HI). lia.
  - intros t. rewrite Ft. intros Ht.
    pose proof (inv_token s HI t Ht) as Hp. cbv zeta in Hp.
    cbv zeta. rewrite Hold by lia. intuition lia.
  - intros cid t Hcid. 
    destruct (N.eq_dec cid (_collectionCount s + 1)) as [->|Hne].
    + rewrite Hnew. cbn. lia.
    + rewrite Hold, Ft by lia. apply (inv_token_rev s HI). lia.
  - intros t. rewrite Ft, Fo. apply (inv_owner s HI).
Qed.

Lemma Inv_setHiddenOwner a cid h s :
  Inv s -> Collection.exists_ (collection_at s cid) = true ->
  Inv (setHiddenOwner_post a cid h s).
Proof.
  intros HI Hex.
  pose proof (Inv_exists s cid HI Hex) as Hcid.
  destruct (frame_setHiddenOwner a cid h s) as (Fc & Fn & Fb & Ft & Fo).
  destruct (totals_setHiddenOwner a cid h s) as (Tm & Ts).
  assert (Hsame : forall i,
    let c' := collection_at (setHiddenOwner_post a cid h s) i in
    let c := collection_at s i in
    Collection.exists_ c' = Collection.exists_ c /\
    Collection.maxSupply c' = Collection.maxSupply c /\
    Collection.minted c' = Collection.minted c /\
    Collection.baseTokenId c' = Collection.baseTokenId c).
  { intros i. cbv zeta. rewrite collection_at_setHiddenOwner_post.
    destruct (N.eqb_spec cid i) as [->|]; repeat split; reflexivity. }
  constructor; rewrite ?Fc, ?Fn, ?Tm, ?Ts.
  - apply (inv_count s HI).
  - apply (inv_next s HI).
  - intros i Hi. unfold setHiddenOwner_post. cbn.
    rewrite lookup_insert_ne by lia. apply (inv_absent s HI), Hi.
  - intros i Hi. cbv zeta. destruct (Hsame i) as (-> & -> & -> & ->).
    apply (inv_present s HI i Hi).
  - intros i j Hi Hij Hj.
    destruct (Hsame i) as (_ & -> & _ & ->). destruct (Hsame j) as (_ & _ & _ & ->).
    apply (inv_order s HI); assumption.
  - intros p. rewrite Fb. apply (inv_balance s HI).
  - apply (inv_supply s HI).
  - intros t. rewrite Ft. intros Ht. cbv zeta.
    destruct (Hsame (tokenToCollection_at s t)) as (_ & _ & -> & ->).
    apply (inv_token s HI t Ht).
  - intros i t Hi. destruct (Hsame i) as (_ & _ & -> & ->). rewrite Ft.
    apply (inv_token_rev s HI i t Hi).
  - intros t. rewrite Ft, Fo. apply (inv_owner s HI).
Qed.

(** Reserved ranges of two different collections share no token id. *)
Lemma Inv_ranges_apart s i j t :
  Inv s -> 1 <= i <= _collectionCount s -> 1 <= j <= _collectionCount s -> i <> j ->
  Collection.baseTokenId (collection_at s i) <= t
    < Collection.baseTokenId (collection_at s i) + Collection.maxSupply (collection_at s i) ->
  Collection.baseTokenId (collection_at s j) <= t
    < Collection.baseTokenId (collection_at s j) + Collection.maxSupply (collection_at s j) ->
  False.
Proof.
  intros HI Hi Hj Hne Hti Htj.
  destruct (N.lt_trichotomy i j) as [Hlt|[->|Hgt]]; [|congruence|].
  - pose proof (inv_order s HI i j ltac:(lia) Hlt ltac:(lia)). lia.
  - pose proof (inv_order s HI j i ltac:(lia) Hgt ltac:(lia)). lia.
Qed.

Lemma Inv_mint a cid s :
  Inv s ->
  Collection.exists_ (collection_at s cid) = true ->
  Collection.minted (collection_at s cid) < Collection.maxSupply (collection_at s cid) ->
  Inv (mint_post a cid s).
Proof.
  intros HI Hex Hlt.
  pose proof (Inv_exists s cid HI Hex) as Hcid.
  destruct (frame_mint a cid s) as (Fc & Fn).
  pose proof (total_minted_mint a cid s Hcid) as Tm.
  pose proof (total_supply_mint a cid s) as Ts.
  set (c := collection_at s cid) in *.
  set (t0 := Collection.baseTokenId c + Collection.minted c).
  assert (Hsame : forall i,
    let c' := collection_at (mint_post a cid s) i in
    let ci := collection_at s i in
    Collection.exists_ c' = Collection.exists_ ci /\
    Collection.maxSupply c' = Collection.maxSupply ci /\
    Collection.baseTokenId c' = Collection.baseTokenId ci /\
    Collection.minted c' = if cid =? i then Collection.minted ci + 1 else Collection.minted ci).
  { intros i. cbv zeta. rewrite collection_at_mint_post.
    destruct (N.eqb_spec cid i) as [->|]; repeat split; reflexivity. }
  pose proof (inv_present s HI cid Hcid) as Hpc. cbv zeta in Hpc. fold c in Hpc.
  constructor; rewrite ?Fc, ?Fn, ?Tm, ?Ts.
  - apply (inv_count s HI).
  - apply (inv_next s HI).
  - intros i Hi. unfold mint_post. cbn.
    rewrite lookup_insert_ne by lia. apply (inv_absent s HI), Hi.
  - intros i Hi. cbv zeta. destruct (Hsame i) as (-> & -> & -> & ->).
    pose proof (inv_present s HI i Hi) as Hp. cbv zeta in Hp.
    destruct (N.eqb_spec cid i) as [<-|]; [fold c in Hp |- *|]; intuition lia.
  - intros i j Hi Hij Hj.
    destruct (Hsame i) as (_ & -> & -> & _). destruct (Hsame j) as (_ & _ & -> & _).
    apply (inv_order s HI); assumption.
  - intros p. rewrite balance_at_mint_post.
    pose proof (inv_balance s HI a). pose proof (inv_balance s HI p).
    destruct (N.eqb_spec a p); lia.
  - apply (inv_supply s HI).
  - intros t. rewrite tokenToCollection_at_mint_post. fold c t0.
    destruct (N.eqb_spec t0 t) as [<-|Hne]; cbv zeta.
    + intros _. destruct (Hsame cid) as (_ & _ & -> & ->). rewrite N.eqb_refl.
      fold c. unfold t0. lia.
    + intros Ht. pose proof (inv_token s HI t Ht) as Hp. cbv zeta in Hp.
      destruct (Hsame (tokenToCollection_at s t)) as (_ & _ & -> & ->).
      destruct (N.eqb_spec cid (tokenToCollection_at s t)); lia.
  - intros i t Hi. destruct (Hsame i) as (_ & _ & -> & ->).
    rewrite tokenToCollection_at_mint_post. fold c t0.
    intros Ht.
    pose proof (inv_present s HI i Hi) as Hpi. cbv zeta in Hpi.
    destruct (N.eqb_spec t0 t) as [<-|Hne].
    + destruct (N.eq_dec cid i) as [|Hci]; [assumption|]. exfalso.
      apply (Inv_ranges_apart s cid i t0 HI Hcid Hi Hci).
      * fold c. unfold t0. lia.
      * destruct (N.eqb_spec cid i); [contradiction|]. lia.
    + apply (inv_token_rev s HI i t Hi).
      destruct (N.eqb_spec cid i) as [<-|]; [fold c in Ht |- *; unfold t0 in Hne|]; lia.
  - intros t. rewrite tokenToCollection_at_mint_post, owner_at_mint_post. fold c t0.
    destruct (N.eqb_spec t0 t); [lia|]. apply (inv_owner s HI).
Qed.

Lemma Inv_step s c o s' : Inv s -> step s c o s' -> Inv s'.
Proof.
  intros HI Hstep.
  destruct Hstep as [a nm cap h p e Hnm Hcap He Hc Hn | a cid h p e Hex Hcr He
                    | a cid c Hex Hlt Ht Hm Hb].
  - apply Inv_createCollection; assumption.
  - apply Inv_setHiddenOwner; assumption.
  - apply Inv_mint; assumption.
Qed.

Lemma Inv_exec c s : Inv s -> Inv (snd (exec c s)).
Proof.
  intros HI. destruct (exec_cases c s) as [[e ->] | (o & s' & -> & Hstep)]; cbn.
  - assumption.
  - eapply Inv_step; eassumption.
Qed.

Lemma run_cons c rest s :
  run (c :: rest) s =
  ((c, fst (exec c s)) :: fst (run rest (snd (exec c s))), snd (run rest (snd (exec c s)))).
Proof.
  cbn [run]. destruct (exec c s) as [r s1]. cbn.
  destruct (run rest s1) as [h s2]. reflexivity.
Qed.

Lemma Inv_run calls : forall s, Inv s -> Inv (snd (run calls s)).
Proof.
  induction calls as [|c rest IH]; intros s HI; [assumption|].
  rewrite run_cons. cbn [snd]. apply IH, Inv_exec, HI.
Qed.

Lemma Inv_final calls : Inv (final_state calls).
Proof. apply Inv_run, Inv_initial. Qed.

(** *** Outcomes of [mint] *)

Lemma mint_missing a cid s :
  Collection.exists_ (collection_at s cid) = false ->
  exec (Mint a cid) s = (Revert InvalidCollection, s).
Proof. intros Hex. rewrite exec_Mint, mint_unfold. cbv zeta. rewrite Hex. reflexivity. Qed.

Lemma mint_exhausted a cid s :
  Collection.exists_ (collection_at s cid) = true ->
  Collection.maxSupply (collection_at s cid) <= Collection.minted (collection_at s cid) ->
  exec (Mint a cid) s = (Revert SupplyExhausted, s).
Proof.
  intros Hex Hfull. rewrite exec_Mint, mint_unfold. cbv zeta. rewrite Hex. cbn [negb].
  destruct (N.leb_spec (Collection.maxSupply (collection_at s cid))
                       (Collection.minted (collection_at s cid))); [reflexivity | lia].
Qed.

Lemma total_minted_le_supply s : Inv s -> total_minted s <= total_supply s.
Proof.
  intros HI. apply sumN_le. intros i Hi. apply collection_ids_elem in Hi.
  apply (inv_present s HI i Hi).
Qed.

(** With supply left, no checked addition of [mint] can overflow. *)
Lemma mint_ready a cid s :
  Inv s ->
  Collection.exists_ (collection_at s cid) = true ->
  Collection.minted (collection_at s cid) < Collection.maxSupply (collection_at s cid) ->
  step s (Mint a cid)
       (OutUint (Collection.baseTokenId (collection_at s cid)
                 + Collection.minted (collection_at s cid)))
       (mint_post a cid s).
Proof.
  intros HI Hex Hlt.
  pose proof (Inv_exists s cid HI Hex) as Hcid.
  pose proof (inv_present s HI cid Hcid) as Hp. cbv zeta in Hp.
  pose proof (inv_next s HI) as Hn.
  assert (Hsum : total_minted s < total_supply s).
  { apply (sumN_lt _ _ _ cid); [|apply collection_ids_elem, Hcid | exact Hlt].
    intros i Hi. apply collection_ids_elem in Hi. apply (inv_present s HI i Hi). }
  pose proof (inv_balance s HI a) as Hb.
  pose proof (inv_supply s HI) as Hs.
  apply step_mint; try assumption; lia.
Qed.

Lemma mint_succeeds a cid s :
  Inv s ->
  Collection.exists_ (collection_at s cid) = true ->
  Collection.minted (collection_at s cid) < Collection.maxSupply (collection_at s cid) ->
  exec (Mint a cid) s =
  (Ok (OutUint (Collection.baseTokenId (collection_at s cid)
                + Collection.minted (collection_at s cid))),
   mint_post a cid s).
Proof. intros HI Hex Hlt. apply step_exec, mint_ready; assumption. Qed.

(** [minted] of any slot never decreases over a transaction. *)
Lemma minted_monotone c s i :
  Inv s ->
  Collection.minted (collection_at s i) <= Collection.minted (collection_at (snd (exec c s)) i).
Proof.
  intros HI. destruct (exec_cases c s) as [[e ->] | (o & s' & -> & Hstep)]; cbn [snd]; [lia|].
  destruct Hstep as [a nm cap h p e Hnm Hcap He Hc Hn | a cid h p e Hex Hcr He
                    | a cid c0 Hex Hlt Ht Hm Hb].
  - rewrite collection_at_createCollection_post.
    destruct (N.eqb_spec (_collectionCount s + 1) i) as [<-|]; [|lia].
    rewrite (collection_at_absent s (_collectionCount s + 1))
      by (apply (inv_absent s HI); lia).
    cbn. lia.
  - rewrite collection_at_setHiddenOwner_post.
    destruct (N.eqb_spec cid i) as [<-|]; cbn; lia.
  - rewrite collection_at_mint_post.
    destruct (N.eqb_spec cid i) as [<-|]; cbn; lia.
Qed.

Lemma minted_bounded s i :
  Inv s -> Collection.minted (collection_at s i) <= Collection.maxSupply (collection_at s i).
Proof.
  intros HI.
  destruct (Collection.exists_ (collection_at s i)) eqn:Hex.
  - apply (inv_present s HI i), Inv_exists; assumption.
  - destruct (N.le_gt_cases 1 i) as [H1|H1], (N.le_gt_cases i (_collectionCount s)) as [H2|H2].
    1: { pose proof (inv_present s HI i (conj H1 H2)) as Hp. cbv zeta in Hp. intuition congruence. }
    all: rewrite (collection_at_absent s i) by (apply (inv_absent s HI); lia); cbn; lia.
Qed.

(** ** Supply bound *)

(** C1. In every state reached from deployment, every collection slot has
    [0 <= minted <= maxSupply]; no transaction lowers [minted]; and [mint]
    on an existing collection reverts with [SupplyExhausted] exactly when
    [minted = maxSupply], while with [minted < maxSupply] it returns. *)
Theorem supply_bound (calls : list Call) :
  let s := final_state calls in
  (forall id, 0 <= Collection.minted (collection_at s id)
                <= Collection.maxSupply (collection_at s id)) /\
  (forall c id, Collection.minted (collection_at s id)
                <= Collection.minted (collection_at (snd (exec c s)) id)) /\
  (forall a id, Collection.exists_ (collection_at s id) = true ->
     (fst (exec (Mint a id) s) = Revert SupplyExhausted <->
      Collection.minted (collection_at s id) = Collection.maxSupply (collection_at s id)) /\
     (Collection.minted (collection_at s id) < Collection.maxSupply (collection_at s id) ->
      exists t, fst (exec (Mint a id) s) = Ok (OutUint t))).
Proof.
  intros s. pose proof (Inv_final calls) as HI. fold s in HI.
  split; [|split].
  - intros id. split; [lia | apply minted_bounded, HI].
  - intros c id. apply minted_monotone, HI.
  - intros a id Hex.
    pose proof (minted_bounded s id HI) as Hle.
    split; [split|].
    + intros Hrev.
      destruct (N.lt_ge_cases (Collection.minted (collection_at s id))
                              (Collection.maxSupply (collection_at s id))) as [Hlt|Hge]; [|lia].
      rewrite (mint_succeeds a id s HI Hex Hlt) in Hrev. discriminate.
    + intros Heq. rewrite mint_exhausted by (assumption || lia). reflexivity.
    + intros Hlt. rewrite (mint_succeeds a id s HI Hex Hlt). eexists. reflexivity.
Qed.

(** ** Token ids handed out by [mint] *)

Lemma seqN_cons m (n : nat) : seqN m (N.of_nat (S n)) = m :: seqN (m + 1) (N.of_nat n).
Proof.
  unfold seqN. rewrite !Nat2N.id. cbn [seq fmap list_fmap].
  rewrite N.add_0_r. f_equal.
  rewrite <- fmap_S_seq, <- list_fmap_compose.
  apply list_fmap_ext. intros _ k _. cbn. lia.
Qed.

(** Consecutive mints on one collection, while supply lasts, return
    consecutive ids from [baseTokenId + minted] on. *)
Lemma mint_sequence cid (minters : list address) :
  forall s, Inv s ->
  Collection.exists_ (collection_at s cid) = true ->
  Collection.minted (collection_at s cid) + N.of_nat (length minters)
    <= Collection.maxSupply (collection_at s cid) ->
  snd <$> fst (run ((fun m => Mint m cid) <$> minters) s)
  = (fun k => Ok (OutUint (Collection.baseTokenId (collection_at s cid) + k)))
      <$> seqN (Collection.minted (collection_at s cid)) (N.of_nat (length minters)).
Proof.
  induction minters as [|a rest IH]; intros s HI Hex Hroom; [reflexivity|].
  cbn [length] in Hroom.
  assert (Hlt : Collection.minted (collection_at s cid)
                < Collection.maxSupply (collection_at s cid)) by lia.
  cbn [fmap list_fmap]. rewrite run_cons. cbn [fst snd fmap list_fmap].
  change (list_fmap _ _ ?f ?l) with (f <$> l).
  rewrite (mint_succeeds a cid s HI Hex Hlt). cbn [fst snd length].
  rewrite seqN_cons. cbn [fmap list_fmap]. f_equal.
  change (list_fmap _ _ ?f ?l) with (f <$> l).
  rewrite IH.
  - rewrite collection_at_mint_post, N.eqb_refl. reflexivity.
  - apply Inv_mint; assumption.
  - rewrite collection_at_mint_post, N.eqb_refl. exact Hex.
  - rewrite collection_at_mint_post, N.eqb_refl. cbn. lia.
Qed.

Lemma createCollection_fresh a nm cap h p s id s1 :
  exec (CreateCollection a nm cap h p) s = (Ok (OutUint id), s1) ->
  id = _collectionCount s + 1 /\
  _nextTokenId s1 = _nextTokenId s + cap /\
  exists e, FHE_fromExternal h p a = Some e /\
    collection_at s1 id = Collection.mk nm cap 0 a (_nextTokenId s) e true.
Proof.
  intros Hexec. apply exec_step in Hexec. inversion Hexec; subst.
  split; [reflexivity|]. split; [reflexivity|].
  eexists. split; [eassumption|].
  rewrite collection_at_createCollection_post, N.eqb_refl. reflexivity.
Qed.

(** C2. In every state reached from deployment, [mint] on an existing
    collection with [minted < maxSupply] returns [baseTokenId + minted],
    raises [minted] by one, records the caller as owner of that id, raises
    the caller's balance by one and records the id's collection; and
    [maxSupply] mints on a collection that was just created return
    [baseTokenId, baseTokenId+1, ..., baseTokenId+maxSupply-1] in order. *)
Theorem mint_assigns_next_slot (calls : list Call) :
  let s := final_state calls in
  (forall a id,
     let c := collection_at s id in
     Collection.exists_ c = true ->
     Collection.minted c < Collection.maxSupply c ->
     let t := Collection.baseTokenId c + Collection.minted c in
     let s' := snd (exec (Mint a id) s) in
     fst (exec (Mint a id) s) = Ok (OutUint t) /\
     Collection.minted (collection_at s' id) = Collection.minted c + 1 /\
     owner_at s' t = a /\
     (a <> address_zero -> ownerOf t s' = Ok a) /\
     balance_at s' a = balance_at s a + 1 /\
     tokenToCollection_at s' t = id) /\
  (forall a nm cap h p id s1 (minters : list address),
     exec (CreateCollection a nm cap h p) s = (Ok (OutUint id), s1) ->
     N.of_nat (length minters) = cap ->
     Collection.baseTokenId (collection_at s1 id) = _nextTokenId s /\
     Collection.maxSupply (collection_at s1 id) = cap /\
     snd <$> fst (run ((fun m => Mint m id) <$> minters) s1)
     = (fun k => Ok (OutUint (Collection.baseTokenId (collection_at s1 id) + k)))
         <$> seqN 0 cap).
Proof.
  intros s. pose proof (Inv_final calls) as HI. fold s in HI. split.
  - intros a id c Hex Hlt t s'. subst s'.
    rewrite (mint_succeeds a id s HI Hex Hlt). cbn [fst snd]. fold c t.
    split; [reflexivity|].
    rewrite collection_at_mint_post, owner_at_mint_post, balance_at_mint_post,
      tokenToCollection_at_mint_post.
    fold c t. rewrite !N.eqb_refl. cbn.
    repeat split; try reflexivity.
    intros Ha. unfold ownerOf. rewrite owner_at_mint_post. fold c t.
    rewrite N.eqb_refl. destruct (N.eqb_spec a address_zero); [contradiction | reflexivity].
  - intros a nm cap h p id s1 minters Hexec Hlen.
    pose proof (Inv_exec (CreateCollection a nm cap h p) s HI) as HI1.
    rewrite Hexec in HI1. cbn [snd] in HI1.
    destruct (createCollection_fresh _ _ _ _ _ _ _ _ Hexec) as (-> & _ & e & _ & Hc).
    rewrite mint_sequence; rewrite ?Hc; cbn; try assumption; try reflexivity.
    + rewrite Hlen. auto.
    + lia.
Qed.

(** ** Collection ids *)

Lemma created_ids_run calls :
  forall s,
    let h := fst (run calls s) in
    created_ids h = seqN (_collectionCount s + 1) (N.of_nat (length (created_ids h))) /\
    _collectionCount (snd (run calls s))
    = _collectionCount s + N.of_nat (length (created_ids h)).
Proof.
  induction calls as [|c rest IH]; intros s; cbv zeta.
  { cbn. split; [reflexivity | lia]. }
  rewrite run_cons. cbn [fst snd].
  destruct (exec_cases c s) as [[e ->] | (o & s' & -> & Hstep)]; cbn [fst snd].
  - destruct (IH s) as [IH1 IH2].
    destruct c; cbn [created_ids]; split; assumption.
  - destruct (IH s') as [IH1 IH2].
    destruct Hstep as [a nm cap h p e Hnm Hcap He Hc Hn | a cid h p e Hex Hcr He
                      | a cid c0 Hex Hlt Ht Hm Hb]; cbn [created_ids].
    + destruct (frame_createCollection a nm cap e s) as (Fc & _).
      rewrite Fc in IH1, IH2. cbn [length]. rewrite seqN_cons.
      split; [f_equal; exact IH1 | lia].
    + split; assumption.
    + split; assumption.
Qed.

(** C3. The ids returned by the successful [createCollection] calls of any
    call sequence are [1, 2, 3, ...] in call order: the first is 1, each is
    one more than the one before, none occurs twice, none is 0. *)
Theorem collection_ids_sequential (calls : list Call) :
  let ids := created_ids (history calls) in
  ids = seqN 1 (N.of_nat (length ids)) /\
  (forall x, head ids = Some x -> x = 1) /\
  (forall (k : nat) x y, ids !! k = Some x -> ids !! S k = Some y -> y = x + 1) /\
  NoDup ids /\
  (0 ∉ ids) /\
  _collectionCount (final_state calls) = N.of_nat (length ids).
Proof.
  intros ids.
  destruct (created_ids_run calls initial_state) as [Hids Hcount].
  cbv zeta in Hids, Hcount. fold (history calls) in Hids, Hcount.
  fold (final_state calls) in Hcount. fold ids in Hids, Hcount.
  change (_collectionCount initial_state + 1) with 1 in Hids.
  change (_collectionCount initial_state) with 0 in Hcount.
  clearbody ids. unfold uint256 in *.
  split; [exact Hids|]. split; [|split; [|split; [|split]]].
  - intros x Hx. rewrite Hids in Hx. destruct (length ids); [discriminate|].
    rewrite seqN_cons in Hx. cbn in Hx. congruence.
  - intros k x y Hx Hy.
    pose proof (lookup_lt_Some _ _ _ Hy) as Hlen.
    rewrite Hids in Hx, Hy.
    rewrite lookup_seqN in Hx, Hy by (rewrite Nat2N.id; lia).
    injection Hx as <-. injection Hy as <-. lia.
  - rewrite Hids. apply NoDup_seqN.
  - rewrite Hids, elem_of_seqN. lia.
  - lia.
Qed.

(** ** Reserved token-id ranges *)

Lemma nextTokenId_exec c s :
  _nextTokenId (snd (exec c s)) =
  match c, fst (exec c s) with
  | CreateCollection _ _ cap _ _, Ok _ => _nextTokenId s + cap
  | _, _ => _nextTokenId s
  end.
Proof.
  destruct (exec_cases c s) as [[e He] | (o & s' & He & Hstep)].
  - destruct c; rewrite He; reflexivity.
  - destruct Hstep; rewrite He; reflexivity.
Qed.

(** C4. In every state reached from deployment no token id lies in the
    reserved ranges of two different existing collections; the token-id
    counter is 1 at deployment, a successful [createCollection] hands its
    value out as [baseTokenId] and advances it by exactly [maxSupply], and
    nothing else moves it. *)
Theorem ranges_disjoint (calls : list Call) :
  let s := final_state calls in
  (forall i j t,
     i <> j ->
     Collection.exists_ (collection_at s i) = true ->
     Collection.exists_ (collection_at s j) = true ->
     ~ (in_range (collection_at s i) t /\ in_range (collection_at s j) t)) /\
  _nextTokenId initial_state = 1 /\
  _nextTokenId s = 1 + total_supply s /\
  (forall a nm cap h p id s1,
     exec (CreateCollection a nm cap h p) s = (Ok (OutUint id), s1) ->
     Collection.baseTokenId (collection_at s1 id) = _nextTokenId s /\
     Collection.maxSupply (collection_at s1 id) = cap /\
     _nextTokenId s1 = _nextTokenId s + cap) /\
  (forall c,
     _nextTokenId (snd (exec c s)) =
     match c, fst (exec c s) with
     | CreateCollection _ _ cap _ _, Ok _ => _nextTokenId s + cap
     | _, _ => _nextTokenId s
     end).
Proof.
  intros s. pose proof (Inv_final calls) as HI. fold s in HI.
  split; [|split; [|split; [|split]]].
  - intros i j t Hne Hi Hj [Hri Hrj]. unfold in_range in Hri, Hrj.
    apply (Inv_exists s i HI) in Hi. apply (Inv_exists s j HI) in Hj.
    pose proof (inv_present s HI i Hi) as Hpi. pose proof (inv_present s HI j Hj) as Hpj.
    cbv zeta in Hpi, Hpj.
    apply (Inv_ranges_apart s i j t HI Hi Hj Hne); lia.
  - reflexivity.
  - pose proof (inv_supply s HI). lia.
  - intros a nm cap h p id s1 Hexec.
    destruct (createCollection_fresh _ _ _ _ _ _ _ _ Hexec) as (-> & Hn & e & _ & Hc).
    rewrite Hc. cbn. auto.
  - intros c. apply nextTokenId_exec.
Qed.

(** ** Access control of [setHiddenOwner] *)

Lemma setHiddenOwner_outcome a id h p s :
  exec (SetHiddenOwner a id h p) s =
  let c := collection_at s id in
  if negb (Collection.exists_ c) then (Revert InvalidCollection, s)
  else if negb (Collection.creator c =? a) then (Revert NotCollectionOwner, s)
  else match FHE_fromExternal h p a with
       | None => (Revert InvalidEncryptedInput, s)
       | Some e => (Ok OutNone, setHiddenOwner_post a id e s)
       end.
Proof.
  rewrite exec_SetHiddenOwner, setHiddenOwner_unfold. cbv zeta.
  repeat case_cond; reflexivity.
Qed.

(** C5. On any storage, [setHiddenOwner] reverts with [InvalidCollection]
    when the collection does not exist, and with [NotCollectionOwner] when
    it exists and the caller is not its creator, the stored handle staying
    as it was; a call that returns was made by the creator of an existing
    collection, and it leaves the handle that [FHE.fromExternal] validated
    in the record. *)
Theorem setHiddenOwner_access (a : address) (id : uint256) (h : externalEaddress)
    (p : bytes) (s : State) :
  let c := collection_at s id in
  let call := SetHiddenOwner a id h p in
  (Collection.exists_ c = false -> exec call s = (Revert InvalidCollection, s)) /\
  (Collection.exists_ c = true -> Collection.creator c <> a ->
     exec call s = (Revert NotCollectionOwner, s) /\
     Collection.hiddenOwner (collection_at (snd (exec call s)) id) = Collection.hiddenOwner c /\
     hiddenOwner id (snd (exec call s)) = hiddenOwner id s) /\
  (forall o s', exec call s = (Ok o, s') ->
     Collection.exists_ c = true /\ Collection.creator c = a /\
     exists e, FHE_fromExternal h p a = Some e /\
               Collection.hiddenOwner (collection_at s' id) = e /\
               hiddenOwner id s' = Ok e) /\
  (forall e, Collection.exists_ c = true -> Collection.creator c = a ->
     FHE_fromExternal h p a = Some e ->
     exec call s = (Ok OutNone, setHiddenOwner_post a id e s)).
Proof.
  intros c call. subst call. rewrite setHiddenOwner_outcome. cbv zeta. fold c.
  split; [|split; [|split]].
  - intros ->. reflexivity.
  - intros -> Hne. cbn [negb].
    destruct (N.eqb_spec (Collection.creator c) a); [contradiction|]. cbn. auto.
  - intros o s'. destruct (Collection.exists_ c) eqn:Hex; cbn [negb]; [|discriminate].
    destruct (N.eqb_spec (Collection.creator c) a) as [Hcr|]; cbn [negb]; [|discriminate].
    destruct (FHE_fromExternal h p a) as [e|]; [|discriminate].
    intros [= <- <-]. split; [reflexivity|]. split; [assumption|].
    exists e. split; [reflexivity|].
    unfold hiddenOwner. rewrite collection_at_setHiddenOwner_post, N.eqb_refl. cbn.
    fold c. rewrite Hex. auto.
  - intros e -> -> ->. rewrite N.eqb_refl. reflexivity.
Qed.

(** ** Failure leaves no trace *)

(** C6. A transaction that reverts leaves the whole storage as it found
    it.  For every error of the contract's own ([EmptyName],
    [InvalidSupply], [InvalidCollection], [NotCollectionOwner],
    [SupplyExhausted], and the rejection by [FHE.fromExternal]) this holds
    of the body itself, before any roll-back: the check comes before the
    first write. *)
Theorem failure_is_atomic (c : Call) (s : State) (e : Error) :
  fst (exec c s) = Revert e ->
  snd (exec c s) = s /\
  fst (dispatch c s) = Revert e /\
  ((forall code, e <> Panic code) -> snd (dispatch c s) = s) /\
  In e [EmptyName; InvalidSupply; InvalidCollection; NotCollectionOwner;
        SupplyExhausted; InvalidEncryptedInput; Panic 17].
Proof.
  destruct c as [a nm cap h p | a cid h p | a cid];
    unfold exec, transact, dispatch, bind, ret;
    [rewrite createCollection_unfold | rewrite setHiddenOwner_unfold | rewrite mint_unfold];
    cbv zeta; repeat (case_cond; cbn [fst snd]);
    repeat match goal with H : _ = Panic 17 /\ _ |- _ => destruct H as [-> _] end;
    intros [= <-]; (split; [reflexivity|]); (split; [reflexivity|]);
    (split; [first [reflexivity | intros Hn; exfalso; apply (Hn 17); reflexivity]
            | cbn; tauto]).
Qed.

(** ** Balances *)

Lemma balance_exec c s p :
  balance_at (snd (exec c s)) p
  = balance_at s p + (if is_mint_by p (c, fst (exec c s)) then 1 else 0).
Proof.
  destruct (exec_cases c s) as [[e He] | (o & s' & He & Hstep)]; rewrite He; cbn [fst snd].
  - destruct c; cbn; lia.
  - destruct Hstep as [a nm cap h q e Hnm Hcap Hf Hc Hn | a cid h q e Hex Hcr Hf
                      | a cid c0 Hex Hlt Ht Hm Hb]; cbn [is_mint_by].
    + destruct (frame_createCollection a nm cap e s) as (_ & _ & Fb & _). rewrite Fb. lia.
    + destruct (frame_setHiddenOwner a cid e s) as (_ & _ & Fb & _). rewrite Fb. lia.
    + rewrite balance_at_mint_post. destruct (N.eqb_spec a p) as [->|]; lia.
Qed.

Lemma balance_run calls p :
  forall s, balance_at (snd (run calls s)) p = balance_at s p + mints_by p (fst (run calls s)).
Proof.
  induction calls as [|c rest IH]; intros s.
  { cbn. lia. }
  rewrite run_cons. cbn [fst snd]. rewrite IH, balance_exec.
  unfold mints_by. cbn [countN]. lia.
Qed.

(** C7. After any call sequence, [balanceOf p] for [p] other than
    [address(0)] returns the number of successful [mint] calls [p] made
    (over all collections; 0 when there were none), and
    [balanceOf(address(0))] reverts with [ZeroAddress]. *)
Theorem balanceOf_counts_mints (calls : list Call) :
  (forall p, p <> address_zero ->
     balanceOf p (final_state calls) = Ok (mints_by p (history calls))) /\
  balanceOf address_zero (final_state calls) = Revert ZeroAddress.
Proof.
  split; [|reflexivity].
  intros p Hp. unfold balanceOf.
  destruct (N.eqb_spec p address_zero); [contradiction|].
  unfold final_state, history. rewrite balance_run. reflexivity.
Qed.

(** ** The snapshot of all collections *)

Lemma getCollection_exists j s :
  Collection.exists_ (collection_at s j) = true -> getCollection j s = Ok (view_of s j).
Proof. intros Hex. unfold getCollection. cbv zeta. rewrite Hex. reflexivity. Qed.

Lemma getCollection_missing j s :
  Collection.exists_ (collection_at s j) = false -> getCollection j s = Revert InvalidCollection.
Proof. intros Hex. unfold getCollection. cbv zeta. rewrite Hex. reflexivity. Qed.

(** The loop of [getAllCollections] from index [k] on: [pre] holds the
    [k] views already stored, [n] zero entries remain to be filled. *)
Lemma getAllCollections_loop s (n : nat) :
  Inv s ->
  forall (k : uint256) (pre : list CollectionView.t),
    length pre = N.to_nat k ->
    k + N.of_nat n = _collectionCount s ->
    for_range (seqN k (N.of_nat n))
      (fun i arr =>
         match add_checked i 1 with
         | Ok j =>
             match getCollection j s with
             | Ok v => array_store arr i v
             | Revert e => Revert e
             end
         | Revert e => Revert e
         end)
      (pre ++ replicate n CollectionView.zero)
    = Ok (pre ++ (view_of s <$> seqN (k + 1) (N.of_nat n))).
Proof.
  intros HI. induction n as [|n IH]; intros k pre Hpre Hk.
  { reflexivity. }
  pose proof (inv_count s HI) as Hmax.
  rewrite !seqN_cons. cbn [for_range fmap list_fmap].
  rewrite add_checked_fits by lia.
  rewrite getCollection_exists by (apply (Inv_exists_iff s (k + 1) HI); lia).
  unfold array_store.
  destruct (Nat.ltb_spec (N.to_nat k) (length (pre ++ replicate (S n) CollectionView.zero)))
    as [_|Hge].
  2: { rewrite length_app, length_replicate in Hge. lia. }
  rewrite <- Hpre. replace (length pre) with (length pre + 0)%nat by lia.
  rewrite insert_app_r. cbn [replicate]. cbn [insert list_insert].
  change (list_fmap _ _ ?f ?l) with (f <$> l).
  rewrite (cons_middle (view_of s (k + 1)) pre (replicate n CollectionView.zero)).
  rewrite app_assoc.
  rewrite IH.
  - rewrite <- app_assoc. reflexivity.
  - rewrite length_app. cbn. lia.
  - lia.
Qed.

Lemma getAllCollections_eq s :
  Inv s -> getAllCollections s = Ok (view_of s <$> collection_ids s).
Proof.
  intros HI. unfold getAllCollections, collection_ids. cbv zeta.
  pose proof (getAllCollections_loop s (N.to_nat (_collectionCount s)) HI 0 []
                eq_refl ltac:(lia)) as Hloop.
  rewrite N2Nat.id in Hloop. exact Hloop.
Qed.

(** C8. In every state reached from deployment [getAllCollections]
    returns: the list of the views of collections [1, 2, ...,
    totalCollections], in that order, which are the ids the successful
    [createCollection] calls returned and the slots whose [exists] flag is
    set; each view carries its collection id and the fields of the stored
    record, and is what [getCollection] returns for that id. *)
Theorem getAllCollections_snapshot (calls : list Call) :
  let s := final_state calls in
  getAllCollections s = Ok (view_of s <$> collection_ids s) /\
  totalCollections s = Ok (_collectionCount s) /\
  collection_ids s = seqN 1 (_collectionCount s) /\
  length (view_of s <$> collection_ids s) = N.to_nat (_collectionCount s) /\
  collection_ids s = created_ids (history calls) /\
  NoDup (collection_ids s) /\
  (forall i, i ∈ collection_ids s <-> Collection.exists_ (collection_at s i) = true) /\
  (forall i,
     let v := view_of s i in
     let c := collection_at s i in
     CollectionView.id v = i /\
     CollectionView.name v = Collection.name c /\
     CollectionView.maxSupply v = Collection.maxSupply c /\
     CollectionView.minted v = Collection.minted c /\
     CollectionView.creator v = Collection.creator c /\
     CollectionView.baseTokenId v = Collection.baseTokenId c /\
     CollectionView.hiddenOwner v = Collection.hiddenOwner c /\
     (i ∈ collection_ids s -> getCollection i s = Ok v)).
Proof.
  intros s. pose proof (Inv_final calls) as HI. fold s in HI.
  destruct (created_ids_run calls initial_state) as [Hids Hcount].
  cbv zeta in Hids, Hcount. fold (history calls) in Hids, Hcount.
  fold (final_state calls) in Hcount. fold s in Hcount.
  change (_collectionCount initial_state + 1) with 1 in Hids.
  change (_collectionCount initial_state) with 0 in Hcount. rewrite N.add_0_l in Hcount.
  split; [apply getAllCollections_eq, HI|].
  split; [reflexivity|]. split; [reflexivity|].
  split; [rewrite length_fmap; apply length_seqN|].
  split; [rewrite Hids, <- Hcount; reflexivity|].
  split; [apply NoDup_seqN|].
  split.
  - intros i. rewrite collection_ids_elem. symmetry. apply Inv_exists_iff, HI.
  - intros i. cbv zeta. cbn. repeat split.
    intros Hi. apply getCollection_exists.
    apply (Inv_exists_iff s i HI), collection_ids_elem, Hi.
Qed.

(** ** Balances against minted counts *)

Lemma total_minted_exec c s :
  Inv s ->
  total_minted (snd (exec c s))
  = total_minted s + (if is_mint (c, fst (exec c s)) then 1 else 0).
Proof.
  intros HI.
  destruct (exec_cases c s) as [[e He] | (o & s' & He & Hstep)]; rewrite He; cbn [fst snd].
  - destruct c; cbn; lia.
  - destruct Hstep as [a nm cap h q e Hnm Hcap Hf Hc Hn | a cid h q e Hex Hcr Hf
                      | a cid c0 Hex Hlt Ht Hm Hb]; cbn [is_mint].
    + destruct (totals_createCollection a nm cap e s) as [-> _]. lia.
    + destruct (totals_setHiddenOwner a cid e s) as [-> _]. lia.
    + apply total_minted_mint, Inv_exists; assumption.
Qed.

Lemma total_minted_run calls :
  forall s, Inv s ->
    total_minted (snd (run calls s)) = total_minted s + successful_mints (fst (run calls s)).
Proof.
  induction calls as [|c rest IH]; intros s HI.
  { cbn. lia. }
  rewrite run_cons. cbn [fst snd].
  rewrite IH by (apply Inv_exec, HI). rewrite total_minted_exec by assumption.
  unfold successful_mints. cbn [countN]. lia.
Qed.

Lemma run_calls calls : forall s, fst <$> fst (run calls s) = calls.
Proof.
  induction calls as [|c rest IH]; intros s; [reflexivity|].
  rewrite run_cons. cbn [fst fmap list_fmap]. f_equal. apply IH.
Qed.

Lemma run_app l1 l2 s :
  run (l1 ++ l2) s
  = (fst (run l1 s) ++ fst (run l2 (snd (run l1 s))), snd (run l2 (snd (run l1 s)))).
Proof.
  revert s. induction l1 as [|c rest IH]; intros s.
  { cbn [app run fst snd]. destruct (run l2 s); reflexivity. }
  cbn [app]. rewrite !run_cons, IH. reflexivity.
Qed.

Lemma final_state_snoc calls c :
  final_state (calls ++ [c]) = snd (exec c (final_state calls)).
Proof.
  unfold final_state. rewrite run_app. cbn [snd]. rewrite run_cons. reflexivity.
Qed.

Lemma mints_by_pos a cid o h : (Mint a cid, Ok o) ∈ h -> 1 <= mints_by a h.
Proof.
  unfold mints_by. induction h as [|x h IH]; intros Hin; [inversion Hin|].
  apply elem_of_cons in Hin as [<-|Hin]; cbn [countN is_mint_by].
  - rewrite N.eqb_refl. lia.
  - specialize (IH Hin). lia.
Qed.

(** Split by minter, the successful mints add up to all of them. *)
Lemma sum_mints_by (holders : list address) h :
  NoDup holders ->
  (forall a cid o, (Mint a cid, Ok o) ∈ h -> a ∈ holders) ->
  sumN (fun p => mints_by p h) holders = successful_mints h.
Proof.
  intros Hnd. unfold mints_by, successful_mints.
  induction h as [|x h IH]; intros Hin; cbn [countN].
  { apply sumN_zero. }
  rewrite sumN_plus, IH.
  2: { intros a cid o Ha. apply (Hin a cid o). apply list_elem_of_further, Ha. }
  f_equal.
  destruct x as [[a nm cap q pr | a cid q pr | a cid] [o|e]]; cbn [is_mint_by is_mint];
    try apply sumN_zero.
  apply sumN_indicator; [assumption|].
  apply (Hin a cid o). apply list_elem_of_here.
Qed.

(** C9. After any sequence of calls whose senders are not [address(0)]:
    summed over any duplicate-free list of principals that contains every
    holder of a non-zero balance, [balanceOf] gives the sum of [minted]
    over all collections, and that is the number of successful [mint]
    calls; the same holds again after any further call. *)
Theorem balances_match_minted (calls : list Call) (holders : list address) :
  Forall sender_nonzero calls ->
  let s := final_state calls in
  NoDup holders ->
  (forall p, balanceOf_value s p <> 0 -> p ∈ holders) ->
  sumN (balanceOf_value s) holders = total_minted s /\
  total_minted s = successful_mints (history calls) /\
  (forall c holders',
     sender_nonzero c ->
     NoDup holders' ->
     (forall p, balanceOf_value (snd (exec c s)) p <> 0 -> p ∈ holders') ->
     sumN (balanceOf_value (snd (exec c s))) holders' = total_minted (snd (exec c s))).
Proof.
  assert (Hmain : forall cs hs,
    Forall sender_nonzero cs -> NoDup hs ->
    (forall p, balanceOf_value (final_state cs) p <> 0 -> p ∈ hs) ->
    sumN (balanceOf_value (final_state cs)) hs = total_minted (final_state cs) /\
    total_minted (final_state cs) = successful_mints (history cs)).
  { intros cs hs Hnz Hnd Hcover.
    assert (Hbal : forall p, balanceOf_value (final_state cs) p
                             = if p =? address_zero then 0 else mints_by p (history cs)).
    { intros p. unfold balanceOf_value, balanceOf.
      destruct (N.eqb_spec p address_zero); [reflexivity|].
      unfold final_state, history. rewrite balance_run. reflexivity. }
    assert (Htot : total_minted (final_state cs) = successful_mints (history cs)).
    { unfold final_state, history. rewrite total_minted_run by apply Inv_initial.
      reflexivity. }
    split; [|exact Htot]. rewrite Htot.
    assert (Hsenders : forall a cid o, (Mint a cid, Ok o) ∈ history cs ->
              a <> address_zero /\ a ∈ hs).
    { intros a cid o Hin.
      assert (Ha : a <> address_zero).
      { assert (Hc : Mint a cid ∈ cs).
        { rewrite <- (run_calls cs initial_state).
          apply (list_elem_of_fmap_2 fst _ _ Hin). }
        rewrite Forall_forall in Hnz. apply (Hnz _ Hc). }
      split; [exact Ha|]. apply Hcover. rewrite Hbal.
      destruct (N.eqb_spec a address_zero); [contradiction|].
      pose proof (mints_by_pos a cid o _ Hin). lia. }
    rewrite <- (sum_mints_by hs (history cs) Hnd).
    2: { intros a cid o Hin. apply (Hsenders a cid o Hin). }
    apply sumN_ext. intros p Hp. rewrite Hbal.
    destruct (N.eqb_spec p address_zero) as [->|]; [|reflexivity].
    destruct (N.eq_dec (mints_by address_zero (history cs)) 0) as [->|Hpos]; [reflexivity|].
    exfalso. clear -Hpos Hsenders.
    assert (Hex : exists cid o, (Mint address_zero cid, Ok o) ∈ history cs).
    { revert Hpos. unfold mints_by. generalize (history cs) as h.
      induction h as [|x h IH]; cbn [countN]; [congruence|].
      destruct (is_mint_by address_zero x) eqn:Hx.
      - intros _. destruct x as [[? ? ? ? ?|? ? ? ?|a cid] [o|e]]; try discriminate.
        cbn in Hx. apply N.eqb_eq in Hx as ->. exists cid, o. apply list_elem_of_here.
      - intros Hh. destruct IH as (cid & o & Hin); [lia|].
        exists cid, o. apply list_elem_of_further, Hin. }
    destruct Hex as (cid & o & Hin). destruct (Hsenders _ _ _ Hin) as [Hne _].
    apply Hne. reflexivity. }
  intros Hnz s Hnd Hcover.
  destruct (Hmain calls holders Hnz Hnd Hcover) as [H1 H2].
  split; [exact H1|]. split; [exact H2|].
  intros c holders' Hc Hnd' Hcover'. subst s.
  rewrite <- final_state_snoc in *.
  apply Hmain; try assumption.
  apply Forall_app. split; [assumption | constructor; [assumption | constructor]].
Qed.

(** ** Token records *)

Lemma token_recorded_exec c s t :
  Inv s ->
  (tokenToCollection_at (snd (exec c s)) t <> 0 <->
   tokenToCollection_at s t <> 0 \/ t ∈ minted_tokens [(c, fst (exec c s))]).
Proof.
  intros HI.
  destruct (exec_cases c s) as [[e He] | (o & s' & He & Hstep)]; rewrite He; cbn [fst snd].
  - destruct c; cbn [minted_tokens]; rewrite elem_of_nil; tauto.
  - destruct Hstep as [a nm cap h q e Hnm Hcap Hf Hc Hn | a cid h q e Hex Hcr Hf
                      | a cid c0 Hex Hlt Ht Hm Hb]; cbn [minted_tokens].
    + destruct (frame_createCollection a nm cap e s) as (_ & _ & _ & Ft & _).
      rewrite Ft, elem_of_nil. tauto.
    + destruct (frame_setHiddenOwner a cid e s) as (_ & _ & _ & Ft & _).
      rewrite Ft, elem_of_nil. tauto.
    + rewrite tokenToCollection_at_mint_post, list_elem_of_singleton. fold c0.
      pose proof (Inv_exists s cid HI Hex) as Hcid.
      destruct (N.eqb_spec (Collection.baseTokenId c0 + Collection.minted c0) t) as [->|Hne].
      * split; [auto | lia].
      * split; [auto | intros [H|H]; [exact H | congruence]].
Qed.

Lemma minted_tokens_cons x h :
  minted_tokens (x :: h) = minted_tokens [x] ++ minted_tokens h.
Proof. destruct x as [[? ? ? ? ?|? ? ? ?|? ?] [[n|]|e]]; reflexivity. Qed.

Lemma token_recorded_run calls :
  forall s t, Inv s ->
    (tokenToCollection_at (snd (run calls s)) t <> 0 <->
     tokenToCollection_at s t <> 0 \/ t ∈ minted_tokens (fst (run calls s))).
Proof.
  induction calls as [|c rest IH]; intros s t HI.
  { cbn. rewrite elem_of_nil. tauto. }
  rewrite run_cons. cbn [fst snd].
  rewrite IH by (apply Inv_exec, HI).
  rewrite token_recorded_exec by assumption.
  rewrite (minted_tokens_cons _ (fst (run rest _))), elem_of_app. tauto.
Qed.

Lemma owners_nonzero_exec c s :
  Inv s -> sender_nonzero c -> owners_nonzero s -> owners_nonzero (snd (exec c s)).
Proof.
  intros HI Hc Hnz.
  destruct (exec_cases c s) as [[e He] | (o & s' & He & Hstep)]; rewrite He; cbn [fst snd].
  - assumption.
  - destruct Hstep as [a nm cap h q e Hnm Hcap Hf Hcc Hn | a cid h q e Hex Hcr Hf
                      | a cid c0 Hex Hlt Ht Hm Hb]; intros t.
    + destruct (frame_createCollection a nm cap e s) as (_ & _ & _ & Ft & Fo).
      rewrite Ft, Fo. apply Hnz.
    + destruct (frame_setHiddenOwner a cid e s) as (_ & _ & _ & Ft & Fo).
      rewrite Ft, Fo. apply Hnz.
    + rewrite tokenToCollection_at_mint_post, owner_at_mint_post. fold c0.
      destruct (N.eqb_spec (Collection.baseTokenId c0 + Collection.minted c0) t).
      * intros _. exact Hc.
      * apply Hnz.
Qed.

Lemma owners_nonzero_run calls :
  forall s, Inv s -> Forall sender_nonzero calls -> owners_nonzero s ->
    owners_nonzero (snd (run calls s)).
Proof.
  induction calls as [|c rest IH]; intros s HI Hall Hnz; [assumption|].
  apply Forall_cons in Hall as [Hc Hrest].
  rewrite run_cons. cbn [snd]. apply IH; [apply Inv_exec, HI | assumption |].
  apply owners_nonzero_exec; assumption.
Qed.

(** C10. After any sequence of calls whose senders are not [address(0)],
    for every token id [t]: [tokenExists] never reverts; it returns [true]
    exactly when [ownerOf] returns, exactly when [tokenCollection]
    returns, exactly when a successful [mint] returned [t]; the id
    [tokenCollection] returns is that of the one existing collection whose
    reserved range contains [t]; and for [t] never minted, [ownerOf] and
    [tokenCollection] revert with [InvalidToken] and [tokenExists]
    returns [false]. *)
Theorem token_views_agree (calls : list Call) (t : uint256) :
  Forall sender_nonzero calls ->
  let s := final_state calls in
  (exists b, tokenExists t s = Ok b) /\
  (tokenExists t s = Ok true <-> is_ok (ownerOf t s) = true) /\
  (is_ok (ownerOf t s) = true <-> is_ok (tokenCollection t s) = true) /\
  (tokenExists t s = Ok true <-> t ∈ minted_tokens (history calls)) /\
  (forall cid, tokenCollection t s = Ok cid ->
     Collection.exists_ (collection_at s cid) = true /\
     in_range (collection_at s cid) t /\
     (forall cid', Collection.exists_ (collection_at s cid') = true ->
                   in_range (collection_at s cid') t -> cid' = cid)) /\
  (t ∉ minted_tokens (history calls) ->
     ownerOf t s = Revert InvalidToken /\
     tokenCollection t s = Revert InvalidToken /\
     tokenExists t s = Ok false).
Proof.
  intros Hall s.
  pose proof (Inv_final calls) as HI. fold s in HI.
  assert (Hnz : owners_nonzero s).
  { apply owners_nonzero_run; [apply Inv_initial | assumption |].
    intros t0 H0. exfalso. apply H0. reflexivity. }
  pose proof (token_recorded_run calls initial_state t Inv_initial) as Hrec.
  fold (final_state calls) (history calls) in Hrec. fold s in Hrec.
  assert (Hrec' : tokenToCollection_at s t <> 0 <-> t ∈ minted_tokens (history calls)).
  { rewrite Hrec. split; [intros [H|H]; [exfalso; apply H; reflexivity | exact H] | auto]. }
  clear Hrec.
  assert (Hown : owner_at s t <> address_zero <-> tokenToCollection_at s t <> 0).
  { split; [|apply Hnz]. intros Ho Ht. apply Ho, (inv_owner s HI), Ht. }
  unfold tokenExists, ownerOf, tokenCollection. cbv zeta.
  destruct (N.eqb_spec (owner_at s t) address_zero) as [Ho|Ho];
    destruct (N.eqb_spec (tokenToCollection_at s t) 0) as [Ht|Ht]; cbn [negb is_ok];
    try (exfalso; tauto).
  - split; [eauto|]. repeat split; try discriminate; tauto.
  - pose proof (inv_token s HI t Ht) as Hp. cbv zeta in Hp.
    pose proof (inv_present s HI _ (proj1 Hp)) as Hq. cbv zeta in Hq.
    split; [eauto|]. split; [tauto|]. split; [tauto|]. split; [tauto|]. split.
    + intros cid [= <-].
      split; [apply (Inv_exists_iff s _ HI), Hp|].
      split; [unfold in_range; lia|].
      intros cid' Hex' Hr'.
      apply (Inv_exists s cid' HI) in Hex'.
      pose proof (inv_present s HI _ Hex') as Hq'. cbv zeta in Hq'.
      unfold in_range in Hr'.
      destruct (N.eq_dec cid' (tokenToCollection_at s t)) as [|Hne]; [assumption|].
      exfalso.
      apply (Inv_ranges_apart s cid' (tokenToCollection_at s t) t HI Hex' (proj1 Hp) Hne); lia.
    + intros H. apply Hrec' in Ht. contradiction.
Qed.

(** * Beyond the ledger's stated properties *)

(** ** What a transaction may change in a collection record *)

Lemma fields_exec c s i :
  Inv s -> Collection.exists_ (collection_at s i) = true ->
  let c0 := collection_at s i in
  let c1 := collection_at (snd (exec c s)) i in
  Collection.exists_ c1 = true /\
  Collection.name c1 = Collection.name c0 /\
  Collection.maxSupply c1 = Collection.maxSupply c0 /\
  Collection.creator c1 = Collection.creator c0 /\
  Collection.baseTokenId c1 = Collection.baseTokenId c0.
Proof.
  intros HI Hex. cbv zeta.
  pose proof (Inv_exists s i HI Hex) as Hi.
  destruct (exec_cases c s) as [[e He] | (o & s' & He & Hstep)]; rewrite He; cbn [fst snd].
  - auto.
  - destruct Hstep as [a nm cap h q e Hnm Hcap Hf Hc Hn | a cid h q e Hex' Hcr Hf
                      | a cid c0 Hex' Hlt Ht Hm Hb].
    + rewrite collection_at_createCollection_post.
      destruct (N.eqb_spec (_collectionCount s + 1) i); [lia | auto].
    + rewrite collection_at_setHiddenOwner_post.
      destruct (N.eqb_spec cid i) as [->|]; cbn; auto.
    + rewrite collection_at_mint_post.
      destruct (N.eqb_spec cid i) as [->|]; cbn; auto.
Qed.

Lemma fields_run more i :
  forall s, Inv s -> Collection.exists_ (collection_at s i) = true ->
  let c0 := collection_at s i in
  let c1 := collection_at (snd (run more s)) i in
  Collection.exists_ c1 = true /\
  Collection.name c1 = Collection.name c0 /\
  Collection.maxSupply c1 = Collection.maxSupply c0 /\
  Collection.creator c1 = Collection.creator c0 /\
  Collection.baseTokenId c1 = Collection.baseTokenId c0.
Proof.
  induction more as [|c rest IH]; intros s HI Hex; cbv zeta.
  { cbn. auto. }
  rewrite run_cons. cbn [snd].
  destruct (fields_exec c s i HI Hex) as (E1 & E2 & E3 & E4 & E5).
  destruct (IH (snd (exec c s)) (Inv_exec c s HI) E1) as (F1 & F2 & F3 & F4 & F5).
  repeat split; congruence.
Qed.

Lemma final_state_app calls more :
  final_state (calls ++ more) = snd (run more (final_state calls)).
Proof. unfold final_state. rewrite run_app. reflexivity. Qed.

(** X1. Once a collection exists, its [exists] flag, [name], [maxSupply],
    [creator] and [baseTokenId] stay what [createCollection] stored, whatever
    calls follow: no later [createCollection] lands on its slot, and
    [setHiddenOwner] and [mint] write other fields only. *)
Theorem collection_fields_immutable (calls more : list Call) (i : uint256) :
  let c0 := collection_at (final_state calls) i in
  let c1 := collection_at (final_state (calls ++ more)) i in
  Collection.exists_ c0 = true ->
  Collection.exists_ c1 = true /\
  Collection.name c1 = Collection.name c0 /\
  Collection.maxSupply c1 = Collection.maxSupply c0 /\
  Collection.creator c1 = Collection.creator c0 /\
  Collection.baseTokenId c1 = Collection.baseTokenId c0.
Proof.
  cbv zeta. intros Hex. rewrite final_state_app.
  apply fields_run; [apply Inv_final | exact Hex].
Qed.

(** X2. In a state reached from deployment, the stored handle of an
    existing collection changes only through a [setHiddenOwner] on that
    collection, sent by its creator, that returns; and its [minted] changes
    only through a [mint] on that collection that returns, by exactly one. *)
Theorem record_changes_only_by_owner_or_mint (calls : list Call) (c : Call) (i : uint256) :
  let s := final_state calls in
  let s' := snd (exec c s) in
  Collection.exists_ (collection_at s i) = true ->
  (Collection.hiddenOwner (collection_at s' i) <> Collection.hiddenOwner (collection_at s i) ->
     exists h p,
       c = SetHiddenOwner (Collection.creator (collection_at s i)) i h p /\
       fst (exec c s) = Ok OutNone /\
       FHE_fromExternal h p (Collection.creator (collection_at s i))
       = Some (Collection.hiddenOwner (collection_at s' i))) /\
  (Collection.minted (collection_at s' i) <> Collection.minted (collection_at s i) ->
     exists a,
       c = Mint a i /\
       fst (exec c s)
       = Ok (OutUint (Collection.baseTokenId (collection_at s i)
                      + Collection.minted (collection_at s i))) /\
       Collection.minted (collection_at s' i) = Collection.minted (collection_at s i) + 1).
Proof.
  intros s s' Hex. subst s'.
  pose proof (Inv_final calls) as HI. fold s in HI.
  pose proof (Inv_exists s i HI Hex) as Hi.
  destruct (exec_cases c s) as [[e He] | (o & s' & He & Hstep)]; rewrite He; cbn [fst snd].
  { split; intros H; exfalso; apply H; reflexivity. }
  destruct Hstep as [a nm cap h q e Hnm Hcap Hf Hc Hn | a cid h q e Hex' Hcr Hf
                    | a cid c0 Hex' Hlt Ht Hm Hb].
  - rewrite collection_at_createCollection_post.
    destruct (N.eqb_spec (_collectionCount s + 1) i); [lia|].
    split; intros H; exfalso; apply H; reflexivity.
  - rewrite collection_at_setHiddenOwner_post.
    destruct (N.eqb_spec cid i) as [->|].
    + cbn. split; [|intros H; exfalso; apply H; reflexivity].
      intros _. subst a. exists h, q. auto.
    + split; intros H; exfalso; apply H; reflexivity.
  - rewrite collection_at_mint_post. subst c0.
    destruct (N.eqb_spec cid i) as [->|].
    + cbn. split; [intros H; exfalso; apply H; reflexivity|].
      intros _. exists a. auto.
    + split; intros H; exfalso; apply H; reflexivity.
Qed.

(** ** [mintedCount] *)

Lemma minted_exec c s i :
  Inv s ->
  Collection.minted (collection_at (snd (exec c s)) i)
  = Collection.minted (collection_at s i)
    + (if is_mint_of i (c, fst (exec c s)) then 1 else 0).
Proof.
  intros HI.
  destruct (exec_cases c s) as [[e He] | (o & s' & He & Hstep)]; rewrite He; cbn [fst snd].
  - destruct c; cbn; lia.
  - destruct Hstep as [a nm cap h q e Hnm Hcap Hf Hc Hn | a cid h q e Hex' Hcr Hf
                      | a cid c0 Hex' Hlt Ht Hm Hb]; cbn [is_mint_of].
    + rewrite collection_at_createCollection_post.
      destruct (N.eqb_spec (_collectionCount s + 1) i) as [<-|]; [|lia].
      rewrite (collection_at_absent s (_collectionCount s + 1))
        by (apply (inv_absent s HI); lia).
      cbn. lia.
    + rewrite collection_at_setHiddenOwner_post.
      destruct (N.eqb_spec cid i) as [->|]; cbn; lia.
    + rewrite collection_at_mint_post.
      destruct (N.eqb_spec cid i) as [->|]; cbn; lia.
Qed.

Lemma minted_run calls i :
  forall s, Inv s ->
    Collection.minted (collection_at (snd (run calls s)) i)
    = Collection.minted (collection_at s i) + mints_of i (fst (run calls s)).
Proof.
  induction calls as [|c rest IH]; intros s HI.
  { cbn. lia. }
  rewrite run_cons. cbn [fst snd].
  rewrite IH by (apply Inv_exec, HI). rewrite minted_exec by assumption.
  unfold mints_of. cbn [countN]. lia.
Qed.

Lemma collection_at_missing s i :
  Inv s -> Collection.exists_ (collection_at s i) = false -> collection_at s i = Collection.zero.
Proof.
  intros HI Hex. apply collection_at_absent, (inv_absent s HI).
  intros Hi. apply (Inv_exists_iff s i HI) in Hi. congruence.
Qed.

(** X3. After any call sequence, [mintedCount(id)] of an existing
    collection returns the number of [mint] calls on [id] that returned, and
    reverts with [InvalidCollection] for an id that was never created, on
    which no [mint] has returned either. *)
Theorem mintedCount_counts_mints (calls : list Call) (id : uint256) :
  let s := final_state calls in
  (Collection.exists_ (collection_at s id) = true ->
     mintedCount id s = Ok (mints_of id (history calls))) /\
  (Collection.exists_ (collection_at s id) = false ->
     mintedCount id s = Revert InvalidCollection /\ mints_of id (history calls) = 0).
Proof.
  intros s.
  pose proof (Inv_final calls) as HI. fold s in HI.
  assert (Hm : Collection.minted (collection_at s id) = mints_of id (history calls)).
  { unfold s, final_state, history. rewrite minted_run by apply Inv_initial. reflexivity. }
  unfold mintedCount. split; intros Hex; rewrite Hex; cbn [negb].
  - rewrite Hm. reflexivity.
  - split; [reflexivity|]. rewrite <- Hm.
    rewrite (collection_at_missing s id HI Hex). reflexivity.
Qed.

(** ** Ids that were never created *)

(** X4. In a state reached from deployment the ids the contract knows are
    exactly [1 .. totalCollections]: for such an id [getCollection],
    [hiddenOwner] and [mintedCount] return the stored values and neither
    [mint] nor [setHiddenOwner] reverts with [InvalidCollection]; for any
    other id, 0 included, all five revert with [InvalidCollection] and the
    two transactions leave the storage as it was. *)
Theorem invalid_collection_iff_never_created (calls : list Call) (id : uint256) :
  let s := final_state calls in
  (1 <= id <= _collectionCount s ->
     getCollection id s = Ok (view_of s id) /\
     hiddenOwner id s = Ok (Collection.hiddenOwner (collection_at s id)) /\
     mintedCount id s = Ok (Collection.minted (collection_at s id)) /\
     (forall a, fst (exec (Mint a id) s) <> Revert InvalidCollection) /\
     (forall a h p, fst (exec (SetHiddenOwner a id h p) s) <> Revert InvalidCollection)) /\
  (~ (1 <= id <= _collectionCount s) ->
     getCollection id s = Revert InvalidCollection /\
     hiddenOwner id s = Revert InvalidCollection /\
     mintedCount id s = Revert InvalidCollection /\
     (forall a, exec (Mint a id) s = (Revert InvalidCollection, s)) /\
     (forall a h p, exec (SetHiddenOwner a id h p) s = (Revert InvalidCollection, s))).
Proof.
  intros s. pose proof (Inv_final calls) as HI. fold s in HI. split.
  - intros Hid. apply (Inv_exists_iff s id HI) in Hid as Hex.
    split; [apply getCollection_exists, Hex|].
    unfold hiddenOwner, mintedCount. rewrite Hex. cbn [negb].
    split; [reflexivity|]. split; [reflexivity|]. split.
    + intros a.
      destruct (N.lt_ge_cases (Collection.minted (collection_at s id))
                              (Collection.maxSupply (collection_at s id))) as [Hlt|Hge].
      * rewrite (mint_succeeds a id s HI Hex Hlt). discriminate.
      * rewrite (mint_exhausted a id s Hex Hge). discriminate.
    + intros a h p. rewrite setHiddenOwner_outcome. cbv zeta. rewrite Hex. cbn [negb].
      destruct (negb _); [discriminate|].
      destruct (FHE_fromExternal h p a); discriminate.
  - intros Hid.
    assert (Hex : Collection.exists_ (collection_at s id) = false).
    { destruct (Collection.exists_ (collection_at s id)) eqn:E; [|reflexivity].
      exfalso. apply Hid, (Inv_exists s id HI E). }
    split; [apply getCollection_missing, Hex|].
    unfold hiddenOwner, mintedCount. rewrite Hex. cbn [negb].
    split; [reflexivity|]. split; [reflexivity|]. split.
    + intros a. apply mint_missing, Hex.
    + intros a h p. rewrite setHiddenOwner_outcome. cbv zeta. rewrite Hex. reflexivity.
Qed.

(** ** Outcomes of [createCollection] *)

(** X5. On any storage [createCollection] checks, in this order, the name
    ([EmptyName] when it has no byte), the supply ([InvalidSupply] when 0)
    and the encrypted input (the rejection of [FHE.fromExternal]); a later
    check is not reached when an earlier one fails.  When all pass and
    neither counter would overflow it returns [_collectionCount + 1], and
    [getCollection] of that id then shows the name and supply passed in, the
    caller as creator, [minted = 0], the old [_nextTokenId] as base and the
    validated handle; when a counter would overflow it reverts with
    [Panic(0x11)]. *)
Theorem createCollection_outcome (a : address) (nm : string) (cap : uint256)
    (h : externalEaddress) (p : bytes) (s : State) :
  let call := CreateCollection a nm cap h p in
  (String.length nm = 0%nat -> exec call s = (Revert EmptyName, s)) /\
  (String.length nm <> 0%nat -> cap = 0 -> exec call s = (Revert InvalidSupply, s)) /\
  (String.length nm <> 0%nat -> cap <> 0 -> FHE_fromExternal h p a = None ->
     exec call s = (Revert InvalidEncryptedInput, s)) /\
  (forall e, String.length nm <> 0%nat -> cap <> 0 -> FHE_fromExternal h p a = Some e ->
     (_collectionCount s + 1 <= MAX_UINT256 -> _nextTokenId s + cap <= MAX_UINT256 ->
        let id := _collectionCount s + 1 in
        let s' := createCollection_post a nm cap e s in
        exec call s = (Ok (OutUint id), s') /\
        getCollection id s' = Ok (CollectionView.mk id nm cap 0 a (_nextTokenId s) e) /\
        hiddenOwner id s' = Ok e /\
        totalCollections s' = Ok id) /\
     (MAX_UINT256 < _collectionCount s + 1 \/ MAX_UINT256 < _nextTokenId s + cap ->
        exec call s = (Revert (Panic 17), s))).
Proof.
  intros call. subst call. rewrite exec_CreateCollection, createCollection_unfold.
  split; [|split; [|split; [|intros e Hnm Hcap Hf; split]]].
  - intros ->. reflexivity.
  - intros Hnm ->. destruct (Nat.eqb_spec (String.length nm) 0); [contradiction | reflexivity].
  - intros Hnm Hcap ->.
    destruct (Nat.eqb_spec (String.length nm) 0); [contradiction|].
    destruct (N.eqb_spec cap 0); [contradiction | reflexivity].
  - intros Hc Hn. cbv zeta.
    destruct (Nat.eqb_spec (String.length nm) 0); [contradiction|].
    destruct (N.eqb_spec cap 0); [contradiction|].
    rewrite Hf. rewrite !add_checked_fits by assumption.
    split; [reflexivity|].
    unfold getCollection, hiddenOwner. cbv zeta.
    rewrite !collection_at_createCollection_post, N.eqb_refl. cbn. auto.
  - intros Hover.
    destruct (Nat.eqb_spec (String.length nm) 0); [contradiction|].
    destruct (N.eqb_spec cap 0); [contradiction|].
    rewrite Hf. cbv zeta. unfold add_checked.
    destruct (N.leb_spec (_collectionCount s + 1) MAX_UINT256); [|reflexivity].
    destruct (N.leb_spec (_nextTokenId s + cap) MAX_UINT256); [lia | reflexivity].
Qed.

(** ** Token ids are handed out once *)

(** The slot the next [mint] on a collection would take is still free. *)
Lemma mint_fresh cid s :
  Inv s ->
  Collection.exists_ (collection_at s cid) = true ->
  Collection.minted (collection_at s cid) < Collection.maxSupply (collection_at s cid) ->
  tokenToCollection_at s
    (Collection.baseTokenId (collection_at s cid) + Collection.minted (collection_at s cid)) = 0.
Proof.
  intros HI Hex Hlt.
  pose proof (Inv_exists s cid HI Hex) as Hcid.
  set (t := Collection.baseTokenId (collection_at s cid)
            + Collection.minted (collection_at s cid)).
  destruct (N.eq_dec (tokenToCollection_at s t) 0) as [|Hne]; [assumption|]. exfalso.
  pose proof (inv_token s HI t Hne) as Hp. cbv zeta in Hp. destruct Hp as [Hin Hr].
  pose proof (inv_present s HI _ Hin) as Hq. cbv zeta in Hq.
  destruct (N.eq_dec (tokenToCollection_at s t) cid) as [E|E].
  - rewrite E in Hr. unfold t in Hr. lia.
  - apply (Inv_ranges_apart s (tokenToCollection_at s t) cid t HI Hin Hcid E); unfold t in *; lia.
Qed.

Lemma minted_tokens_exec c s t :
  Inv s -> t ∈ minted_tokens [(c, fst (exec c s))] ->
  minted_tokens [(c, fst (exec c s))] = [t] /\ tokenToCollection_at s t = 0.
Proof.
  intros HI.
  destruct (exec_cases c s) as [[e He] | (o & s' & He & Hstep)]; rewrite He; cbn [fst snd].
  - destruct c; cbn [minted_tokens]; intros Hin; inversion Hin.
  - destruct Hstep as [a nm cap h q e Hnm Hcap Hf Hc Hn | a cid h q e Hex' Hcr Hf
                      | a cid c0 Hex' Hlt Ht Hm Hb]; cbn [minted_tokens];
      intros Hin; try (inversion Hin; fail).
    apply list_elem_of_singleton in Hin as ->.
    split; [reflexivity | apply mint_fresh; assumption].
Qed.

Lemma minted_tokens_run_fresh calls :
  forall s, Inv s ->
    NoDup (minted_tokens (fst (run calls s))) /\
    (forall t, t ∈ minted_tokens (fst (run calls s)) -> tokenToCollection_at s t = 0).
Proof.
  induction calls as [|c rest IH]; intros s HI.
  { cbn. split; [apply NoDup_nil_2 | intros t Ht; inversion Ht]. }
  rewrite run_cons. cbn [fst].
  rewrite (minted_tokens_cons _ (fst (run rest _))).
  destruct (IH (snd (exec c s)) (Inv_exec c s HI)) as [IHnd IHfresh].
  split.
  - apply NoDup_app. split; [|split; [|exact IHnd]].
    + destruct (minted_tokens [(c, fst (exec c s))]) as [|t l] eqn:E; [apply NoDup_nil_2|].
      destruct (minted_tokens_exec c s t HI) as [E' _]; [rewrite E; apply list_elem_of_here|].
      rewrite E in E'. rewrite E'. apply NoDup_singleton.
    + intros t Ht Ht'. apply IHfresh in Ht'.
      apply (proj2 (token_recorded_exec c s t HI)); [right; exact Ht | exact Ht'].
  - intros t Ht. apply elem_of_app in Ht as [Ht|Ht].
    + apply (minted_tokens_exec c s t HI Ht).
    + apply IHfresh in Ht.
      destruct (N.eq_dec (tokenToCollection_at s t) 0) as [|Hne]; [assumption|]. exfalso.
      apply (proj2 (token_recorded_exec c s t HI)); [left; exact Hne | exact Ht].
Qed.

(** X6. Over any call sequence no token id is returned by [mint] twice;
    and in every state reached from deployment, the id a [mint] returns was
    free before the call: [tokenExists] said [false], and [ownerOf] and
    [tokenCollection] reverted with [InvalidToken]. *)
Theorem minted_token_ids_fresh (calls : list Call) :
  let s := final_state calls in
  NoDup (minted_tokens (history calls)) /\
  (forall a id t,
     fst (exec (Mint a id) s) = Ok (OutUint t) ->
     (t ∉ minted_tokens (history calls)) /\
     tokenExists t s = Ok false /\
     ownerOf t s = Revert InvalidToken /\
     tokenCollection t s = Revert InvalidToken).
Proof.
  intros s. pose proof (Inv_final calls) as HI. fold s in HI.
  split; [apply (minted_tokens_run_fresh calls initial_state Inv_initial)|].
  intros a id t Hret.
  assert (Hfree : tokenToCollection_at s t = 0).
  { apply (minted_tokens_exec (Mint a id) s t HI). rewrite Hret. cbn. apply list_elem_of_here. }
  pose proof (inv_owner s HI t Hfree) as Hown.
  split; [|unfold tokenExists, ownerOf, tokenCollection; cbv zeta;
           rewrite Hfree, Hown; cbn; auto].
  intros Hin.
  pose proof (token_recorded_run calls initial_state t Inv_initial) as Hrec.
  fold (final_state calls) (history calls) in Hrec. fold s in Hrec.
  apply (proj2 Hrec); [right; exact Hin | exact Hfree].
Qed.

(** ** A token keeps its minter *)

Lemma token_stable_exec c s t :
  Inv s -> tokenToCollection_at s t <> 0 ->
  owner_at (snd (exec c s)) t = owner_at s t /\
  tokenToCollection_at (snd (exec c s)) t = tokenToCollection_at s t.
Proof.
  intros HI Ht.
  destruct (exec_cases c s) as [[e He] | (o & s' & He & Hstep)]; rewrite He; cbn [fst snd].
  - auto.
  - destruct Hstep as [a nm cap h q e Hnm Hcap Hf Hc Hn | a cid h q e Hex' Hcr Hf
                      | a cid c0 Hex' Hlt Htk Hm Hb].
    + split; reflexivity.
    + split; reflexivity.
    + rewrite owner_at_mint_post, tokenToCollection_at_mint_post. fold c0.
      pose proof (mint_fresh cid s HI Hex' Hlt) as Hfree. fold c0 in Hfree.
      destruct (N.eqb_spec (Collection.baseTokenId c0 + Collection.minted c0) t) as [E|];
        [|auto].
      rewrite E in Hfree. contradiction.
Qed.

Lemma token_stable_run calls t :
  forall s, Inv s -> tokenToCollection_at s t <> 0 ->
    owner_at (snd (run calls s)) t = owner_at s t /\
    tokenToCollection_at (snd (run calls s)) t = tokenToCollection_at s t.
Proof.
  induction calls as [|c rest IH]; intros s HI Ht; [auto|].
  rewrite run_cons. cbn [snd].
  destruct (token_stable_exec c s t HI Ht) as [E1 E2].
  destruct (IH (snd (exec c s)) (Inv_exec c s HI)) as [F1 F2]; [congruence|].
  split; congruence.
Qed.

Lemma exec_Mint_Ok a cid s t s' :
  exec (Mint a cid) s = (Ok (OutUint t), s') ->
  Collection.exists_ (collection_at s cid) = true /\
  Collection.minted (collection_at s cid) < Collection.maxSupply (collection_at s cid) /\
  t = Collection.baseTokenId (collection_at s cid) + Collection.minted (collection_at s cid) /\
  s' = mint_post a cid s.
Proof.
  intros H. apply exec_step in H. inversion H; subst. auto.
Qed.

Lemma minter_recorded_run calls a cid t :
  forall s, Inv s ->
    (Mint a cid, Ok (OutUint t)) ∈ fst (run calls s) ->
    owner_at (snd (run calls s)) t = a /\
    tokenToCollection_at (snd (run calls s)) t = cid /\
    cid <> 0.
Proof.
  induction calls as [|c rest IH]; intros s HI Hin.
  { inversion Hin. }
  rewrite run_cons in Hin |- *. cbn [fst snd] in Hin |- *.
  apply elem_of_cons in Hin as [Hhead|Htail].
  - injection Hhead as <- Hret. symmetry in Hret.
    destruct (exec (Mint a cid) s) as [r s1] eqn:Hexec. cbn [fst snd] in Hret |- *.
    subst r. apply exec_Mint_Ok in Hexec as (Hex & Hlt & Ht & ->).
    pose proof (Inv_exists s cid HI Hex) as Hcid.
    assert (Hnow : owner_at (mint_post a cid s) t = a /\
                   tokenToCollection_at (mint_post a cid s) t = cid).
    { rewrite owner_at_mint_post, tokenToCollection_at_mint_post, <- Ht, N.eqb_refl. auto. }
    destruct Hnow as [N1 N2].
    destruct (token_stable_run rest t (mint_post a cid s)) as [S1 S2].
    + apply Inv_mint; assumption.
    + rewrite N2. lia.
    + repeat split; [congruence | congruence | lia].
  - apply IH; [apply Inv_exec, HI | exact Htail].
Qed.

(** X7. After any call sequence, a token id that some [mint] returned is
    still recorded with the sender of that call as owner and the collection
    it was minted from: [tokenCollection] returns that collection, and
    [ownerOf] returns that sender (any sender but [address(0)]).  No later
    call changes either. *)
Theorem token_keeps_its_minter (calls : list Call) (a : address) (cid t : uint256) :
  let s := final_state calls in
  (Mint a cid, Ok (OutUint t)) ∈ history calls ->
  owner_at s t = a /\
  tokenToCollection_at s t = cid /\
  tokenCollection t s = Ok cid /\
  (a <> address_zero -> ownerOf t s = Ok a /\ tokenExists t s = Ok true).
Proof.
  intros s Hin.
  destruct (minter_recorded_run calls a cid t initial_state Inv_initial Hin) as (Ho & Hc & Hne).
  fold (final_state calls) in Ho, Hc. fold s in Ho, Hc.
  split; [exact Ho|]. split; [exact Hc|].
  unfold tokenCollection, ownerOf, tokenExists. cbv zeta. rewrite Ho, Hc.
  split.
  - destruct (N.eqb_spec cid 0); [contradiction | reflexivity].
  - intros Ha. destruct (N.eqb_spec a address_zero); [contradiction | auto].
Qed.

(** ** Sold out stays sold out *)

(** X8. Once an existing collection has [minted = maxSupply], [mint] on it
    reverts with [SupplyExhausted] after any further calls as well, and
    [minted] stays at [maxSupply]. *)
Theorem sold_out_is_final (calls more : list Call) (a : address) (id : uint256) :
  let s := final_state calls in
  let s' := final_state (calls ++ more) in
  Collection.exists_ (collection_at s id) = true ->
  Collection.minted (collection_at s id) = Collection.maxSupply (collection_at s id) ->
  exec (Mint a id) s' = (Revert SupplyExhausted, s') /\
  Collection.minted (collection_at s' id) = Collection.maxSupply (collection_at s id).
Proof.
  intros s s' Hex Hfull. subst s'.
  pose proof (Inv_final calls) as HI. fold s in HI.
  pose proof (Inv_final (calls ++ more)) as HI'.
  pose proof (minted_bounded _ id HI') as Hle.
  rewrite final_state_app in *. fold s in HI', Hle |- *.
  destruct (fields_run more id s HI Hex) as (Hex' & _ & Hmax & _).
  pose proof (minted_run more id s HI) as Hm.
  split.
  - apply mint_exhausted; [exact Hex' | lia].
  - lia.
Qed.

(** ** The event log *)

Lemma event_log_exec c s :
  event_log (snd (exec c s)) = event_log s ++ events_of (c, fst (exec c s)).
Proof.
  destruct (exec_cases c s) as [[e He] | (o & s' & He & Hstep)]; rewrite He; cbn [fst snd].
  - destruct c; cbn [events_of]; rewrite app_nil_r; reflexivity.
  - destruct Hstep as [a nm cap h q e Hnm Hcap Hf Hc Hn | a cid h q e Hex' Hcr Hf
                      | a cid c0 Hex' Hlt Htk Hm Hb]; cbn [events_of]; rewrite ?Hf.
    + reflexivity.
    + reflexivity.
    + unfold mint_post. cbn. rewrite <- app_assoc. reflexivity.
Qed.

Lemma event_log_run calls :
  forall s, event_log (snd (run calls s))
            = event_log s ++ concat (events_of <$> fst (run calls s)).
Proof.
  induction calls as [|c rest IH]; intros s.
  { cbn. rewrite app_nil_r. reflexivity. }
  rewrite run_cons. cbn [fst snd fmap list_fmap concat].
  rewrite IH, event_log_exec, <- app_assoc. reflexivity.
Qed.

(** X9. After any call sequence the event log is, in call order, what the
    calls that returned emitted: one [CollectionCreated] per
    [createCollection], one [HiddenOwnerUpdated] per [setHiddenOwner], a
    [Minted] followed by a [Transfer] from [address(0)] per [mint], each with
    the returned id and the sender; a call that reverted left no event. *)
Theorem event_log_mirrors_history (calls : list Call) :
  event_log (final_state calls) = concat (events_of <$> history calls).
Proof.
  unfold final_state, history. rewrite event_log_run. reflexivity.
Qed.

(** ** Who may read a handle *)

Lemma fhe_acl_exec c s : exists more, fhe_acl (snd (exec c s)) = fhe_acl s ++ more.
Proof.
  destruct (exec_cases c s) as [[e He] | (o & s' & He & Hstep)]; rewrite He; cbn [fst snd].
  - exists []. rewrite app_nil_r. reflexivity.
  - destruct Hstep as [a nm cap h q e Hnm Hcap Hf Hc Hn | a cid h q e Hex' Hcr Hf
                      | a cid c0 Hex' Hlt Htk Hm Hb].
    + exists [(e, ThisContract); (e, Account a)]. cbn. rewrite <- app_assoc. reflexivity.
    + exists [(e, ThisContract); (e, Account a)]. cbn. rewrite <- app_assoc. reflexivity.
    + exists []. cbn. rewrite app_nil_r. reflexivity.
Qed.

Lemma handles_granted_exec c s :
  Inv s -> handles_granted s -> handles_granted (snd (exec c s)).
Proof.
  intros HI Hg.
  destruct (fhe_acl_exec c s) as [more Hacl].
  assert (Hkeep : forall x, x ∈ fhe_acl s -> x ∈ fhe_acl (snd (exec c s))).
  { intros x Hx. rewrite Hacl. apply elem_of_app. left. exact Hx. }
  revert Hkeep. clear Hacl.
  destruct (exec_cases c s) as [[e He] | (o & s' & He & Hstep)]; rewrite He; cbn [fst snd].
  { intros _. exact Hg. }
  intros Hkeep i.
  destruct Hstep as [a nm cap h q e Hnm Hcap Hf Hc Hn | a cid h q e Hex' Hcr Hf
                    | a cid c0 Hex' Hlt Htk Hm Hb].
  - rewrite collection_at_createCollection_post.
    destruct (N.eqb_spec (_collectionCount s + 1) i).
    + intros _. cbn. rewrite !elem_of_app, !list_elem_of_singleton. auto.
    + intros Hex. destruct (Hg i Hex). split; apply Hkeep; assumption.
  - rewrite collection_at_setHiddenOwner_post.
    destruct (N.eqb_spec cid i) as [->|].
    + intros _. cbn. rewrite Hcr, !elem_of_app, !list_elem_of_singleton. auto.
    + intros Hex. destruct (Hg i Hex). split; apply Hkeep; assumption.
  - rewrite collection_at_mint_post.
    destruct (N.eqb_spec cid i) as [->|]; cbn [Collection.with_minted Collection.exists_
      Collection.hiddenOwner Collection.creator];
      intros Hex; destruct (Hg i Hex); split; apply Hkeep; assumption.
Qed.

Lemma grants_to_creators_exec c s :
  Inv s -> grants_to_creators s -> grants_to_creators (snd (exec c s)).
Proof.
  intros HI Hg h0 a0 Hin.
  assert (Hold : (h0, Account a0) ∈ fhe_acl s ->
                 exists i, Collection.exists_ (collection_at (snd (exec c s)) i) = true /\
                           Collection.creator (collection_at (snd (exec c s)) i) = a0).
  { intros Hx. destruct (Hg h0 a0 Hx) as (i & Hex & Hcr). exists i.
    destruct (fields_exec c s i HI Hex) as (E1 & _ & _ & E4 & _). split; congruence. }
  revert Hin Hold.
  destruct (exec_cases c s) as [[e He] | (o & s' & He & Hstep)]; rewrite He; cbn [fst snd].
  { intros Hin Hold. apply Hold, Hin. }
  destruct Hstep as [a nm cap h q e Hnm Hcap Hf Hc Hn | a cid h q e Hex' Hcr Hf
                    | a cid c0 Hex' Hlt Htk Hm Hb]; intros Hin Hold.
  - cbn in Hin. rewrite !elem_of_app, !list_elem_of_singleton in Hin.
    destruct Hin as [[Hin|Hin]|Hin]; [apply Hold, Hin | discriminate |].
    injection Hin as -> ->. exists (_collectionCount s + 1).
    rewrite collection_at_createCollection_post, N.eqb_refl. auto.
  - cbn in Hin. rewrite !elem_of_app, !list_elem_of_singleton in Hin.
    destruct Hin as [[Hin|Hin]|Hin]; [apply Hold, Hin | discriminate |].
    injection Hin as -> ->. exists cid.
    rewrite collection_at_setHiddenOwner_post, N.eqb_refl. cbn. auto.
  - apply Hold. exact Hin.
Qed.

Lemma grants_run calls :
  forall s, Inv s -> handles_granted s -> grants_to_creators s ->
    handles_granted (snd (run calls s)) /\ grants_to_creators (snd (run calls s)).
Proof.
  induction calls as [|c rest IH]; intros s HI H1 H2; [auto|].
  rewrite run_cons. cbn [snd].
  apply IH; [apply Inv_exec, HI | apply handles_granted_exec | apply grants_to_creators_exec];
    assumption.
Qed.

(** X10. In every state reached from deployment, the handle stored for an
    existing collection has been made readable, through [FHE.allowThis] and
    [FHE.allow], for the contract and for the collection's creator; every
    account that was ever granted a handle is the creator of a collection;
    and a transaction only ever adds grants, it takes none back. *)
Theorem handle_grants_follow_creator (calls : list Call) :
  let s := final_state calls in
  handles_granted s /\
  grants_to_creators s /\
  (forall c, exists more, fhe_acl (snd (exec c s)) = fhe_acl s ++ more).
Proof.
  intros s.
  destruct (grants_run calls initial_state Inv_initial) as [H1 H2].
  - intros i Hex. discriminate Hex.
  - intros h a Hin. inversion Hin.
  - split; [exact H1|]. split; [exact H2|]. intros c. apply fhe_acl_exec.
Qed.

(** ** Minted ids fill a range from its start *)

(** X14. In every state reached from deployment, [tokenCollection(t)]
    returns [cid] exactly when collection [cid] exists and [t] is one of the
    first [minted] ids of its range, [baseTokenId <= t < baseTokenId +
    minted]; so the ids some [mint] has returned are those ids, with no gap
    inside a range and none outside every range. *)
Theorem minted_ids_fill_range (calls : list Call) (t cid : uint256) :
  let s := final_state calls in
  let c := collection_at s cid in
  (tokenCollection t s = Ok cid <->
   Collection.exists_ c = true /\
   Collection.baseTokenId c <= t < Collection.baseTokenId c + Collection.minted c) /\
  (t ∈ minted_tokens (history calls) <->
   exists cid', Collection.exists_ (collection_at s cid') = true /\
     Collection.baseTokenId (collection_at s cid') <= t
       < Collection.baseTokenId (collection_at s cid') + Collection.minted (collection_at s cid')).
Proof.
  intros s c. subst c.
  pose proof (Inv_final calls) as HI. fold s in HI.
  assert (Hfwd : forall k, tokenToCollection_at s t = k -> k <> 0 ->
            Collection.exists_ (collection_at s k) = true /\
            Collection.baseTokenId (collection_at s k) <= t
              < Collection.baseTokenId (collection_at s k)
                + Collection.minted (collection_at s k)).
  { intros k <- Hk. pose proof (inv_token s HI t Hk) as Hp. cbv zeta in Hp.
    split; [apply (Inv_exists_iff s _ HI), Hp | apply Hp]. }
  assert (Hbwd : forall k, Collection.exists_ (collection_at s k) = true ->
            Collection.baseTokenId (collection_at s k) <= t
              < Collection.baseTokenId (collection_at s k)
                + Collection.minted (collection_at s k) ->
            tokenToCollection_at s t = k /\ k <> 0).
  { intros k Hex Hr. pose proof (Inv_exists s k HI Hex) as Hk.
    split; [apply (inv_token_rev s HI k t Hk Hr) | lia]. }
  split.
  - unfold tokenCollection. cbv zeta. split.
    + destruct (N.eqb_spec (tokenToCollection_at s t) 0) as [|Hne]; [discriminate|].
      intros [= E]. apply (Hfwd cid E). congruence.
    + intros [Hex Hr]. destruct (Hbwd cid Hex Hr) as [E Hne]. rewrite E.
      destruct (N.eqb_spec cid 0); [contradiction | reflexivity].
  - pose proof (token_recorded_run calls initial_state t Inv_initial) as Hrec.
    fold (final_state calls) (history calls) in Hrec. fold s in Hrec.
    split.
    + intros Hin. exists (tokenToCollection_at s t). apply Hfwd; [reflexivity|].
      apply Hrec. right. exact Hin.
    + intros (k & Hex & Hr). destruct (Hbwd k Hex Hr) as [E Hne].
      destruct (proj1 Hrec) as [H0|Hin]; [congruence | | exact Hin].
      exfalso. apply H0. reflexivity.
Qed.

(** * The web client against the ledger *)

(** ** [formatAddress] *)

Lemma js_slice_head (a : js_string) : js_slice a 0 (Some 6%Z) = take 6 a.
Proof.
  unfold js_slice. cbv zeta.
  change (0 <? 0)%Z with false. change (6 <? 0)%Z with false. cbv iota.
  replace (Z.to_nat (Z.min 0 (Z.of_nat (length a)))) with 0%nat by lia.
  rewrite drop_0.
  destruct (Nat.le_gt_cases 6 (length a)) as [Hlong|Hshort].
  - f_equal. lia.
  - rewrite !take_ge; [reflexivity | lia | lia].
Qed.

Lemma js_slice_tail (a : js_string) : js_slice a (-4) None = drop (length a - 4) a.
Proof.
  unfold js_slice. cbv zeta.
  change (-4 <? 0)%Z with true. cbv iota.
  replace (Z.to_nat (Z.max (Z.of_nat (length a) + -4) 0)) with (length a - 4)%nat by lia.
  apply take_ge. rewrite length_drop. lia.
Qed.

(** X11. [formatAddress] returns the empty string for [undefined] and for
    the empty string.  For any other string it returns the first six code
    units (all of them if there are fewer), three dots, and the last four
    (all if fewer): at most 13 code units, shorter than the input exactly
    when the input has more than 13, and for an input of ten or more code
    units (an address has 42) the two kept parts do not overlap. *)
Theorem formatAddress_shape (a : js_string) :
  formatAddress None = [] /\
  formatAddress (Some []) = [] /\
  (a <> [] ->
     formatAddress (Some a) = take 6 a ++ js "..." ++ drop (length a - 4) a /\
     length (formatAddress (Some a)) = (min 6 (length a) + 3 + min 4 (length a))%nat /\
     (length (formatAddress (Some a)) <= 13)%nat /\
     ((length (formatAddress (Some a)) < length a)%nat <-> (13 < length a)%nat) /\
     ((10 <= length a)%nat ->
        exists middle, a = take 6 a ++ middle ++ drop (length a - 4) a)).
Proof.
  split; [reflexivity|]. split; [reflexivity|]. intros Ha.
  assert (Heq : formatAddress (Some a) = take 6 a ++ js "..." ++ drop (length a - 4) a).
  { destruct a as [|x a']; [contradiction|].
    unfold formatAddress. rewrite js_slice_head, js_slice_tail. reflexivity. }
  assert (Hlen : length (formatAddress (Some a))
                 = (min 6 (length a) + 3 + min 4 (length a))%nat).
  { rewrite Heq, !length_app, length_take, length_drop. cbn [js length fmap list_fmap
      list_ascii_of_string]. lia. }
  split; [exact Heq|]. split; [exact Hlen|]. split; [lia|]. split; [lia|].
  intros Hlong. exists (take (length a - 10) (drop 6 a)).
  rewrite <- (take_drop 6 a) at 1. f_equal.
  rewrite <- (take_drop (length a - 10) (drop 6 a)) at 1. f_equal.
  rewrite drop_drop. f_equal. lia.
Qed.

(** ** The totals of [NovaMintApp] *)

Lemma fold_left_sum {A} (f : A -> Z) (l : list A) (z : Z) :
  fold_left (fun acc x => (acc + f x)%Z) l z
  = (z + fold_right (fun x acc => (f x + acc)%Z) 0%Z l)%Z.
Proof.
  revert z. induction l as [|x l IH]; intros z; cbn; [lia|]. rewrite IH. lia.
Qed.

Lemma sum_decoded abi (f : Collection.t -> N) (g : ClientCollection.t -> Z) s (ids : list N) :
  (forall i, g (decode_collection abi (view_of s i)) = Z.of_N (f (collection_at s i))) ->
  fold_right (fun x acc => (g x + acc)%Z) 0%Z (decode_collection abi <$> (view_of s <$> ids))
  = Z.of_N (sumN (fun i => f (collection_at s i)) ids).
Proof.
  intros Hg. induction ids as [|i ids IH]; cbn [fmap list_fmap fold_right sumN]; [reflexivity|].
  change (list_fmap _ _ ?h ?l) with (h <$> l). rewrite IH, Hg. lia.
Qed.

(** X12. When [NovaMintApp] holds the result of [getAllCollections] on a
    state reached from deployment, it shows one entry per created
    collection; its [totalMinted] is the number of [mint] calls that have
    returned, its [totalSupply] is [_nextTokenId - 1], the number of token ids
    reserved so far; and [totalSupply - totalMinted] is not negative. *)
Theorem client_totals_match_ledger (calls : list Call) (abi : AbiDecoder)
    (items : list CollectionView.t) :
  let s := final_state calls in
  getAllCollections s = Ok items ->
  let cs := collections abi (Some items) in
  length cs = N.to_nat (_collectionCount s) /\
  totalMinted cs = Z.of_N (successful_mints (history calls)) /\
  totalSupply cs = (Z.of_N (_nextTokenId s) - 1)%Z /\
  (0 <= totalSupply cs - totalMinted cs)%Z.
Proof.
  intros s Hdata cs. subst cs.
  pose proof (Inv_final calls) as HI. fold s in HI.
  rewrite (getAllCollections_eq s HI) in Hdata. injection Hdata as <-.
  assert (Hm : totalMinted (collections abi (Some (view_of s <$> collection_ids s)))
               = Z.of_N (total_minted s)).
  { unfold totalMinted, collections. rewrite fold_left_sum, Z.add_0_l.
    apply (sum_decoded abi Collection.minted ClientCollection.minted). reflexivity. }
  assert (Hs : totalSupply (collections abi (Some (view_of s <$> collection_ids s)))
               = Z.of_N (total_supply s)).
  { unfold totalSupply, collections. rewrite fold_left_sum, Z.add_0_l.
    apply (sum_decoded abi Collection.maxSupply ClientCollection.maxSupply). reflexivity. }
  assert (Htot : total_minted s = successful_mints (history calls)).
  { unfold s, final_state, history. rewrite total_minted_run by apply Inv_initial.
    reflexivity. }
  pose proof (total_minted_le_supply s HI) as Hle.
  pose proof (inv_supply s HI) as Hsup.
  rewrite Hm, Hs.
  split; [unfold collections; rewrite !length_fmap; apply length_seqN|].
  split; [rewrite Htot; reflexivity|]. split; lia.
Qed.

(** ** The mint button of [CollectionCard] *)

(** X13. For a card built from an item of [getAllCollections] on a state
    reached from deployment: [supplyLeft] is [maxSupply - minted] of the
    stored record and never negative, so the caption shows it unclamped;
    with no mint in flight and the relayer loaded, the button is disabled
    and reads "Sold out" exactly when [mint] on that collection would revert
    with [SupplyExhausted], and is enabled and reads "Mint NFT" exactly when
    [mint] would return. *)
Theorem mint_button_matches_ledger (calls : list Call) (abi : AbiDecoder)
    (items : list CollectionView.t) (item : CollectionView.t) (a : address) :
  let s := final_state calls in
  getAllCollections s = Ok items ->
  item ∈ items ->
  let card := decode_collection abi item in
  let id := CollectionView.id item in
  ClientCollection.id card = Z.of_N id /\
  supplyLeft card = Z.of_N (Collection.maxSupply (collection_at s id)
                            - Collection.minted (collection_at s id)) /\
  supplyLeftShown card = supplyLeft card /\
  (mintButtonDisabled false false card = true <->
   exec (Mint a id) s = (Revert SupplyExhausted, s)) /\
  (mintButtonDisabled false false card = false <->
   exists t, fst (exec (Mint a id) s) = Ok (OutUint t)) /\
  (mintButtonLabel false card = "Sold out"%string <->
   mintButtonDisabled false false card = true) /\
  (mintButtonLabel false card = "Mint NFT"%string <->
   mintButtonDisabled false false card = false).
Proof.
  intros s Hdata Hin card id. subst card id.
  pose proof (Inv_final calls) as HI. fold s in HI.
  rewrite (getAllCollections_eq s HI) in Hdata. injection Hdata as <-.
  apply list_elem_of_fmap in Hin as (i & -> & Hi).
  apply collection_ids_elem in Hi. apply (Inv_exists_iff s i HI) in Hi as Hex.
  pose proof (minted_bounded s i HI) as Hle.
  cbn [view_of CollectionView.id].
  assert (Hleft : supplyLeft (decode_collection abi (view_of s i))
                  = Z.of_N (Collection.maxSupply (collection_at s i)
                            - Collection.minted (collection_at s i))).
  { unfold supplyLeft. cbn. lia. }
  unfold supplyLeftShown, mintButtonDisabled, mintButtonLabel. rewrite Hleft.
  cbn [orb].
  set (left := Collection.maxSupply (collection_at s i)
               - Collection.minted (collection_at s i)) in *.
  split; [reflexivity|]. split; [reflexivity|].
  split; [destruct (Z.geb_spec (Z.of_N left) 0); [reflexivity | lia]|].
  destruct (N.lt_ge_cases (Collection.minted (collection_at s i))
                          (Collection.maxSupply (collection_at s i))) as [Hlt|Hge].
  - rewrite (mint_succeeds a i s HI Hex Hlt). cbn [fst].
    destruct (Z.leb_spec (Z.of_N left) 0); [unfold left in *; lia|].
    destruct (Z.gtb_spec (Z.of_N left) 0); [|lia].
    repeat split; try discriminate; eauto.
  - rewrite (mint_exhausted a i s Hex Hge). cbn [fst].
    destruct (Z.leb_spec (Z.of_N left) 0); [|unfold left in *; lia].
    destruct (Z.gtb_spec (Z.of_N left) 0); [unfold left in *; lia|].
    repeat split; try discriminate; try reflexivity.
    intros [t Ht]. discriminate.
Qed.

End NovaMint.

(** * The properties on the sample session *)

Lemma supply_bound_witness :
  let s := final_state mock_fromExternal genesis_created in
  Collection.exists_ (collection_at s 1) = true /\
  Collection.minted (collection_at s 1) < Collection.maxSupply (collection_at s 1) /\
  exists t, fst (exec mock_fromExternal (Mint carol 1) s) = Ok (OutUint t).
Proof.
  cbv zeta. split; [reflexivity|]. split; [reflexivity|].
  destruct (supply_bound mock_fromExternal genesis_created) as (_ & _ & H).
  destruct (H carol 1) as [_ Hroom]; [reflexivity|].
  apply Hroom. reflexivity.
Defined.

Lemma mint_assigns_next_slot_witness :
  let s := final_state mock_fromExternal genesis_created in
  let s1 := snd (exec mock_fromExternal (CreateCollection alice "Second" 3 8 some_proof) s) in
  (Collection.exists_ (collection_at s 1) = true /\
   Collection.minted (collection_at s 1) < Collection.maxSupply (collection_at s 1) /\
   fst (exec mock_fromExternal (Mint carol 1) s) = Ok (OutUint 2) /\
   owner_at (snd (exec mock_fromExternal (Mint carol 1) s)) 2 = carol) /\
  (exec mock_fromExternal (CreateCollection alice "Second" 3 8 some_proof) s
     = (Ok (OutUint 2), s1) /\
   N.of_nat (length [bob; carol; alice]) = 3 /\
   snd <$> fst (run mock_fromExternal ((fun m => Mint m 2) <$> [bob; carol; alice]) s1)
     = [Ok (OutUint 3); Ok (OutUint 4); Ok (OutUint 5)]).
Proof.
  cbv zeta.
  destruct (mint_assigns_next_slot mock_fromExternal genesis_created) as [Hone Hseq].
  split.
  - destruct (Hone carol 1) as (Hret & _ & Hown & _);
      [vm_compute; reflexivity | vm_compute; reflexivity |].
    split; [vm_compute; reflexivity|]. split; [vm_compute; reflexivity|].
    split.
    + etransitivity; [exact Hret | vm_compute; reflexivity].
    + etransitivity; [|exact Hown]; vm_compute; reflexivity.
  - split; [vm_compute; reflexivity|]. split; [reflexivity|].
    destruct (Hseq alice "Second"%string 3 8 some_proof 2
                (snd (exec mock_fromExternal
                        (CreateCollection alice "Second" 3 8 some_proof)
                        (final_state mock_fromExternal genesis_created)))
                [bob; carol; alice]) as (_ & _ & Hids);
      [vm_compute; reflexivity | reflexivity |].
    etransitivity; [exact Hids | vm_compute; reflexivity].
Defined.

Lemma collection_ids_sequential_witness :
  let calls := genesis_created ++ [CreateCollection bob "Second" 3 8 some_proof] in
  let ids := created_ids (history mock_fromExternal calls) in
  ids !! 0%nat = Some 1 /\ ids !! 1%nat = Some 2 /\ 2 = 1 + 1.
Proof.
  cbv zeta.
  destruct (collection_ids_sequential mock_fromExternal
              (genesis_created ++ [CreateCollection bob "Second" 3 8 some_proof]))
    as (_ & _ & Hnext & _).
  split; [vm_compute; reflexivity|]. split; [vm_compute; reflexivity|].
  apply (Hnext 0%nat 1 2); vm_compute; reflexivity.
Defined.

Lemma ranges_disjoint_witness :
  let s := final_state mock_fromExternal
             (genesis_created ++ [CreateCollection bob "Second" 3 8 some_proof]) in
  1 <> 2 /\
  Collection.exists_ (collection_at s 1) = true /\
  Collection.exists_ (collection_at s 2) = true /\
  ~ (in_range (collection_at s 1) 2 /\ in_range (collection_at s 2) 2).
Proof.
  cbv zeta.
  destruct (ranges_disjoint mock_fromExternal
              (genesis_created ++ [CreateCollection bob "Second" 3 8 some_proof]))
    as (Hapart & _).
  split; [discriminate|]. split; [vm_compute; reflexivity|]. split; [vm_compute; reflexivity|].
  apply Hapart; [discriminate | vm_compute; reflexivity | vm_compute; reflexivity].
Defined.

Lemma setHiddenOwner_access_witness :
  let s := final_state mock_fromExternal genesis_created in
  (Collection.exists_ (collection_at s 1) = true /\
   Collection.creator (collection_at s 1) <> bob /\
   exec mock_fromExternal (SetHiddenOwner bob 1 8 some_proof) s = (Revert NotCollectionOwner, s)) /\
  (Collection.exists_ (collection_at s 5) = false /\
   exec mock_fromExternal (SetHiddenOwner alice 5 8 some_proof) s = (Revert InvalidCollection, s)) /\
  (Collection.creator (collection_at s 1) = alice /\
   mock_fromExternal 8 some_proof alice = Some 1008 /\
   exec mock_fromExternal (SetHiddenOwner alice 1 8 some_proof) s
   = (Ok OutNone, setHiddenOwner_post alice 1 1008 s)).
Proof.
  cbv zeta. split; [|split].
  - split; [vm_compute; reflexivity|]. split; [discriminate|].
    apply (setHiddenOwner_access mock_fromExternal bob 1 8 some_proof);
      [vm_compute; reflexivity | discriminate].
  - split; [vm_compute; reflexivity|].
    apply (setHiddenOwner_access mock_fromExternal alice 5 8 some_proof). vm_compute; reflexivity.
  - split; [vm_compute; reflexivity|]. split; [vm_compute; reflexivity|].
    apply (setHiddenOwner_access mock_fromExternal alice 1 8 some_proof); vm_compute; reflexivity.
Defined.

Lemma failure_is_atomic_witness :
  let s := final_state mock_fromExternal genesis_sold_out in
  fst (exec mock_fromExternal (Mint alice 1) s) = Revert SupplyExhausted /\
  snd (exec mock_fromExternal (Mint alice 1) s) = s /\
  snd (dispatch mock_fromExternal (Mint alice 1) s) = s.
Proof.
  cbv zeta.
  destruct (failure_is_atomic mock_fromExternal (Mint alice 1)
              (final_state mock_fromExternal genesis_sold_out) SupplyExhausted)
    as (Hexec & _ & Hbody & _); [vm_compute; reflexivity|].
  split; [vm_compute; reflexivity|]. split; [exact Hexec|].
  apply Hbody. discriminate.
Defined.

Lemma balanceOf_counts_mints_witness :
  bob <> address_zero /\
  balanceOf bob (final_state mock_fromExternal genesis_sold_out)
  = Ok (mints_by bob (history mock_fromExternal genesis_sold_out)).
Proof.
  split; [discriminate|].
  apply (balanceOf_counts_mints mock_fromExternal genesis_sold_out). discriminate.
Defined.

Lemma getAllCollections_snapshot_witness :
  let s := final_state mock_fromExternal genesis_sold_out in
  1 ∈ collection_ids s /\ getCollection 1 s = Ok (view_of s 1).
Proof.
  cbv zeta.
  destruct (getAllCollections_snapshot mock_fromExternal genesis_sold_out)
    as (_ & _ & _ & _ & _ & _ & _ & Hview).
  assert (Hin : 1 ∈ collection_ids (final_state mock_fromExternal genesis_sold_out)).
  { vm_compute. apply list_elem_of_here. }
  split; [exact Hin|]. apply (Hview 1), Hin.
Defined.

Lemma balances_match_minted_witness :
  let s := final_state mock_fromExternal genesis_sold_out in
  Forall sender_nonzero genesis_sold_out /\
  NoDup [bob; carol] /\
  (forall p, balanceOf_value s p <> 0 -> p ∈ [bob; carol]) /\
  sumN (balanceOf_value s) [bob; carol] = total_minted s /\
  total_minted s = successful_mints (history mock_fromExternal genesis_sold_out).
Proof.
  cbv zeta.
  assert (Hsenders : Forall sender_nonzero genesis_sold_out).
  { unfold genesis_sold_out, genesis_created. cbn [app].
    repeat (apply Forall_cons; split; [unfold sender_nonzero; cbn; discriminate|]).
    constructor. }
  assert (Hnd : NoDup [bob; carol]).
  { apply NoDup_cons. split; [|apply NoDup_singleton].
    rewrite list_elem_of_singleton. discriminate. }
  assert (Hcover : forall p,
            balanceOf_value (final_state mock_fromExternal genesis_sold_out) p <> 0 ->
            p ∈ [bob; carol]).
  { intros p Hp. unfold balanceOf_value, balanceOf in Hp.
    destruct (N.eqb_spec p address_zero); [congruence|].
    unfold final_state in Hp. rewrite balance_run in Hp.
    unfold balance_at in Hp. cbn [initial_state _balances] in Hp.
    rewrite lookup_empty in Hp.
    set (h := fst (run mock_fromExternal genesis_sold_out initial_state)) in Hp.
    vm_compute in h. subst h. cbn [mints_by countN is_mint_by default] in Hp.
    destruct (N.eqb_spec 11 p) as [E|]; [rewrite <- E; apply list_elem_of_here|].
    destruct (N.eqb_spec 12 p) as [E|];
      [rewrite <- E; apply list_elem_of_further, list_elem_of_here|].
    exfalso. apply Hp. reflexivity. }
  split; [exact Hsenders|]. split; [exact Hnd|]. split; [exact Hcover|].
  destruct (balances_match_minted mock_fromExternal genesis_sold_out [bob; carol]
              Hsenders Hnd Hcover) as (Hsum & Htot & _).
  split; [exact Hsum | exact Htot].
Defined.

Lemma token_views_agree_witness :
  let s := final_state mock_fromExternal genesis_sold_out in
  Forall sender_nonzero genesis_sold_out /\
  (tokenExists 2 s = Ok true <-> is_ok (tokenCollection 2 s) = true) /\
  (7 ∉ minted_tokens (history mock_fromExternal genesis_sold_out)) /\
  ownerOf 7 s = Revert InvalidToken /\
  tokenCollection 7 s = Revert InvalidToken /\
  tokenExists 7 s = Ok false.
Proof.
  cbv zeta.
  assert (Hsenders : Forall sender_nonzero genesis_sold_out).
  { unfold genesis_sold_out, genesis_created. cbn [app].
    repeat (apply Forall_cons; split; [unfold sender_nonzero; cbn; discriminate|]).
    constructor. }
  assert (Hnever : 7 ∉ minted_tokens (history mock_fromExternal genesis_sold_out)).
  { replace (minted_tokens (history mock_fromExternal genesis_sold_out)) with [1; 2]
      by (vm_compute; reflexivity).
    rewrite !not_elem_of_cons. repeat split; [discriminate .. | apply not_elem_of_nil]. }
  split; [exact Hsenders|].
  destruct (token_views_agree mock_fromExternal genesis_sold_out 2 Hsenders)
    as (_ & Hown & Hcol & _).
  destruct (token_views_agree mock_fromExternal genesis_sold_out 7 Hsenders)
    as (_ & _ & _ & _ & _ & Hmissing).
  split; [etransitivity; [exact Hown | exact Hcol]|].
  split; [exact Hnever|]. apply Hmissing, Hnever.
Defined.

(** What [sender_nonzero] rules out: were a mint sent by [address(0)], the
    token would be recorded for its collection and counted in [minted], yet
    [_owners] would hold [address(0)] for it and [balanceOf] could not be
    asked about its holder. *)
Remark mint_sent_by_address_zero :
  let s := final_state mock_fromExternal (genesis_created ++ [Mint address_zero 1]) in
  tokenExists 2 s = Ok false /\
  tokenCollection 2 s = Ok 1 /\
  balanceOf address_zero s = Revert ZeroAddress /\
  total_minted s = 2.
Proof. vm_compute. repeat split. Qed.

(** * The further properties on the sample session *)

Lemma collection_fields_immutable_witness :
  let c0 := collection_at (final_state mock_fromExternal genesis_created) 1 in
  let c1 := collection_at (final_state mock_fromExternal
                             (genesis_created ++ [Mint carol 1])) 1 in
  Collection.exists_ c0 = true /\
  Collection.maxSupply c1 = Collection.maxSupply c0 /\
  Collection.creator c1 = Collection.creator c0.
Proof.
  cbv zeta. split; [vm_compute; reflexivity|].
  destruct (collection_fields_immutable mock_fromExternal genesis_created [Mint carol 1] 1)
    as (_ & _ & Hmax & Hcr & _); [vm_compute; reflexivity|].
  split; [exact Hmax | exact Hcr].
Defined.

Lemma record_changes_only_by_owner_or_mint_witness :
  let s := final_state mock_fromExternal genesis_created in
  let s' := snd (exec mock_fromExternal (Mint carol 1) s) in
  Collection.exists_ (collection_at s 1) = true /\
  Collection.minted (collection_at s' 1) <> Collection.minted (collection_at s 1) /\
  exists a, Mint carol 1 = Mint a 1 /\
    Collection.minted (collection_at s' 1) = Collection.minted (collection_at s 1) + 1.
Proof.
  cbv zeta.
  assert (Hex : Collection.exists_
                  (collection_at (final_state mock_fromExternal genesis_created) 1) = true)
    by (vm_compute; reflexivity).
  assert (Hne : Collection.minted
                  (collection_at (snd (exec mock_fromExternal (Mint carol 1)
                     (final_state mock_fromExternal genesis_created))) 1)
                <> Collection.minted
                     (collection_at (final_state mock_fromExternal genesis_created) 1))
    by (vm_compute; discriminate).
  split; [exact Hex|]. split; [exact Hne|].
  destruct (record_changes_only_by_owner_or_mint mock_fromExternal genesis_created
              (Mint carol 1) 1 Hex) as [_ Hminted].
  destruct (Hminted Hne) as (a & Hc & _ & Hm). exists a. split; [exact Hc | exact Hm].
Defined.

Lemma mintedCount_counts_mints_witness :
  let s := final_state mock_fromExternal genesis_sold_out in
  Collection.exists_ (collection_at s 1) = true /\
  mintedCount 1 s = Ok (mints_of 1 (history mock_fromExternal genesis_sold_out)).
Proof.
  cbv zeta. split; [vm_compute; reflexivity|].
  apply (mintedCount_counts_mints mock_fromExternal genesis_sold_out 1).
  vm_compute; reflexivity.
Defined.

Lemma invalid_collection_iff_never_created_witness :
  let s := final_state mock_fromExternal genesis_created in
  ~ (1 <= 0 <= _collectionCount s) /\
  getCollection 0 s = Revert InvalidCollection /\
  exec mock_fromExternal (Mint bob 0) s = (Revert InvalidCollection, s).
Proof.
  cbv zeta.
  assert (Hout : ~ (1 <= 0 <= _collectionCount (final_state mock_fromExternal genesis_created)))
    by lia.
  split; [exact Hout|].
  destruct (invalid_collection_iff_never_created mock_fromExternal genesis_created 0)
    as [_ Hmissing].
  destruct (Hmissing Hout) as (Hget & _ & _ & Hmint & _).
  split; [exact Hget | apply Hmint].
Defined.

Lemma createCollection_outcome_witness :
  String.length "Genesis" <> 0%nat /\
  exec mock_fromExternal (CreateCollection alice "Genesis" 0 7 some_proof) initial_state
  = (Revert InvalidSupply, initial_state).
Proof.
  split; [discriminate|].
  apply (createCollection_outcome mock_fromExternal alice "Genesis" 0 7 some_proof
           initial_state); [discriminate | reflexivity].
Defined.

Lemma minted_token_ids_fresh_witness :
  let s := final_state mock_fromExternal genesis_created in
  fst (exec mock_fromExternal (Mint carol 1) s) = Ok (OutUint 2) /\
  tokenExists 2 s = Ok false /\
  ownerOf 2 s = Revert InvalidToken.
Proof.
  cbv zeta.
  assert (Hret : fst (exec mock_fromExternal (Mint carol 1)
                        (final_state mock_fromExternal genesis_created)) = Ok (OutUint 2))
    by (vm_compute; reflexivity).
  split; [exact Hret|].
  destruct (minted_token_ids_fresh mock_fromExternal genesis_created) as [_ Hfresh].
  destruct (Hfresh carol 1 2 Hret) as (_ & Hex & Hown & _).
  split; [exact Hex | exact Hown].
Defined.

Lemma token_keeps_its_minter_witness :
  let s := final_state mock_fromExternal genesis_sold_out in
  (Mint bob 1, Ok (OutUint 1)) ∈ history mock_fromExternal genesis_sold_out /\
  bob <> address_zero /\
  tokenCollection 1 s = Ok 1 /\
  ownerOf 1 s = Ok bob.
Proof.
  cbv zeta.
  assert (Hin : (Mint bob 1, Ok (OutUint 1)) ∈ history mock_fromExternal genesis_sold_out).
  { vm_compute. apply list_elem_of_further, list_elem_of_here. }
  split; [exact Hin|]. split; [discriminate|].
  destruct (token_keeps_its_minter mock_fromExternal genesis_sold_out bob 1 1 Hin)
    as (_ & _ & Hcol & Hown).
  split; [exact Hcol|]. apply Hown. discriminate.
Defined.

Lemma sold_out_is_final_witness :
  let s := final_state mock_fromExternal genesis_sold_out in
  let s' := final_state mock_fromExternal
              (genesis_sold_out ++ [CreateCollection bob "Second" 3 8 some_proof]) in
  Collection.exists_ (collection_at s 1) = true /\
  Collection.minted (collection_at s 1) = Collection.maxSupply (collection_at s 1) /\
  exec mock_fromExternal (Mint alice 1) s' = (Revert SupplyExhausted, s').
Proof.
  cbv zeta. split; [vm_compute; reflexivity|]. split; [vm_compute; reflexivity|].
  apply (sold_out_is_final mock_fromExternal genesis_sold_out
           [CreateCollection bob "Second" 3 8 some_proof] alice 1);
    vm_compute; reflexivity.
Defined.

Lemma handle_grants_follow_creator_witness :
  let s := final_state mock_fromExternal genesis_created in
  Collection.exists_ (collection_at s 1) = true /\
  (Collection.hiddenOwner (collection_at s 1),
   Account (Collection.creator (collection_at s 1))) ∈ fhe_acl s.
Proof.
  cbv zeta. split; [vm_compute; reflexivity|].
  destruct (handle_grants_follow_creator mock_fromExternal genesis_created) as (Hg & _).
  apply (Hg 1). vm_compute; reflexivity.
Defined.

Lemma formatAddress_shape_witness :
  let a := js "0x52908400098527886E0F7030069857D2E4169EE7" in
  a <> [] /\
  formatAddress (Some a) = js "0x5290...9EE7" /\
  length (formatAddress (Some a)) = 13%nat.
Proof.
  cbv zeta.
  destruct (formatAddress_shape (js "0x52908400098527886E0F7030069857D2E4169EE7"))
    as (_ & _ & Hshape).
  assert (Hne : js "0x52908400098527886E0F7030069857D2E4169EE7" <> []) by discriminate.
  split; [exact Hne|].
  destruct (Hshape Hne) as (Heq & Hlen & _).
  split; [rewrite Heq; vm_compute; reflexivity | rewrite Hlen; vm_compute; reflexivity].
Defined.

Lemma client_totals_match_ledger_witness :
  let s := final_state mock_fromExternal genesis_created in
  let items := view_of s <$> collection_ids s in
  getAllCollections s = Ok items /\
  totalMinted (collections mock_abi (Some items)) = 1%Z /\
  totalSupply (collections mock_abi (Some items)) = 2%Z.
Proof.
  cbv zeta.
  assert (Hdata : getAllCollections (final_state mock_fromExternal genesis_created)
                  = Ok (view_of (final_state mock_fromExternal genesis_created)
                          <$> collection_ids (final_state mock_fromExternal genesis_created)))
    by (vm_compute; reflexivity).
  split; [exact Hdata|].
  destruct (client_totals_match_ledger mock_fromExternal genesis_created mock_abi _ Hdata)
    as (_ & Hm & Hs & _).
  split; [rewrite Hm | rewrite Hs]; vm_compute; reflexivity.
Defined.

Lemma mint_button_matches_ledger_witness :
  let s := final_state mock_fromExternal genesis_sold_out in
  let items := view_of s <$> collection_ids s in
  getAllCollections s = Ok items /\
  view_of s 1 ∈ items /\
  mintButtonLabel false (decode_collection mock_abi (view_of s 1)) = "Sold out"%string /\
  exec mock_fromExternal (Mint alice 1) s = (Revert SupplyExhausted, s).
Proof.
  cbv zeta.
  assert (Hdata : getAllCollections (final_state mock_fromExternal genesis_sold_out)
                  = Ok (view_of (final_state mock_fromExternal genesis_sold_out)
                          <$> collection_ids (final_state mock_fromExternal genesis_sold_out)))
    by (vm_compute; reflexivity).
  assert (Hin : view_of (final_state mock_fromExternal genesis_sold_out) 1
                ∈ view_of (final_state mock_fromExternal genesis_sold_out)
                    <$> collection_ids (final_state mock_fromExternal genesis_sold_out)).
  { vm_compute. apply list_elem_of_here. }
  split; [exact Hdata|]. split; [exact Hin|].
  destruct (mint_button_matches_ledger mock_fromExternal genesis_sold_out mock_abi _ _ alice
              Hdata Hin) as (_ & _ & _ & Hdis & _ & Hlabel & _).
  assert (Hlab : mintButtonLabel false
                   (decode_collection mock_abi
                      (view_of (final_state mock_fromExternal genesis_sold_out) 1))
                 = "Sold out"%string) by (vm_compute; reflexivity).
  split; [exact Hlab|].
  apply Hdis, Hlabel, Hlab.
Defined.

Lemma minted_ids_fill_range_witness :
  let s := final_state mock_fromExternal genesis_sold_out in
  Collection.exists_ (collection_at s 1) = true /\
  Collection.baseTokenId (collection_at s 1) <= 2
    < Collection.baseTokenId (collection_at s 1) + Collection.minted (collection_at s 1) /\
  tokenCollection 2 s = Ok 1.
Proof.
  cbv zeta.
  assert (Hex : Collection.exists_
                  (collection_at (final_state mock_fromExternal genesis_sold_out) 1) = true)
    by (vm_compute; reflexivity).
  assert (Hr : Collection.baseTokenId
                 (collection_at (final_state mock_fromExternal genesis_sold_out) 1) <= 2
               < Collection.baseTokenId
                   (collection_at (final_state mock_fromExternal genesis_sold_out) 1)
                 + Collection.minted
                     (collection_at (final_state mock_fromExternal genesis_sold_out) 1)).
  { vm_compute. split; [discriminate | reflexivity]. }
  split; [exact Hex|]. split; [exact Hr|].
  apply (minted_ids_fill_range mock_fromExternal genesis_sold_out 2 1). split; assumption.
Defined.
